(** * anafora.eval: scoring of annotation agreement

    A shallow embedding of [anafora/eval.py].  Python integers are [Z],
    Python floats are exact rationals [Q] (the counters are lengths of
    in-memory sets, so only the quotient's rounding is abstracted), a
    Python [set] is the list of its entries in insertion order together
    with the [__eq__] and [__hash__] of its element type, a [dict] keyed by
    score names is a [gmap]. *)

From Stdlib Require Import ZArith QArith Lia Lqa Ascii.
From Stdlib Require Import Permutation.
From stdpp Require Import base decidable option list gmap strings.

(** ** Scores *)

Record Scores := mkScores {
  reference : Z;
  predicted : Z;
  correct : Z
}.

(** [Scores.__init__] *)
Definition Scores_init : Scores := mkScores 0 0 0.

(** [Scores.update] *)
Definition update (self other : Scores) : Scores :=
  mkScores (reference self + reference other)
           (predicted self + predicted other)
           (correct self + correct other).

(** [Scores.precision]: [1.0 if self.predicted == 0 else
    self.correct / float(self.predicted)] *)
Definition precision (self : Scores) : Q :=
  if (predicted self =? 0)%Z then 1%Q
  else (inject_Z (correct self) / inject_Z (predicted self))%Q.

(** [Scores.recall] *)
Definition recall (self : Scores) : Q :=
  if (reference self =? 0)%Z then 1%Q
  else (inject_Z (correct self) / inject_Z (reference self))%Q.

(** [Scores.f1] *)
Definition f1 (self : Scores) : Q :=
  let p := precision self in
  let r := recall self in
  if Qeq_bool (p + r) 0 then 0%Q else (2 * p * r / (p + r))%Q.

(** ** Python hashing

    What [hash] returns is only ever compared for equality, so a hash value
    is kept symbolically: an integer, the hash of a string, or the hash of a
    tuple built from the hashes of its items.  Two different codes stand for
    two different hash values. *)

Inductive HashCode :=
  | HInt (z : Z)
  | HStr (s : string)
  | HNil
  | HCons (item rest : HashCode).

#[global] Instance HashCode_eq_dec : EqDecision HashCode.
Proof. solve_decision. Defined.

(** [hash] of a tuple whose items hash to [items] *)
Definition hash_tuple (items : list HashCode) : HashCode := foldr HCons HNil items.

(** ** Python sets

    A hash set over an element type with its own [__eq__] and [__hash__].
    An entry matches a key when the stored hash equals the key's hash and
    [entry == key]; nothing here asks [py_eq] to be an equivalence. *)

Section PySet.
Context {A : Type} (py_eq : A → A → bool) (py_hash : A → HashCode).

Definition set_contains (so : list A) (key : A) : bool :=
  existsb (λ startkey,
             bool_decide (py_hash startkey = py_hash key) && py_eq startkey key) so.

(** [set.add] *)
Definition set_add (so : list A) (key : A) : list A :=
  if set_contains so key then so else so ++ [key].

(** a set filled from an iterable, one [add] per item *)
Definition set_of (items : list A) : list A := foldl set_add [] items.

Definition set_len (so : list A) : Z := Z.of_nat (length so).

(** [so & other]: the smaller operand is walked, the entries found in the
    larger one are added to a fresh set. *)
Definition set_intersection (so other : list A) : list A :=
  let '(so, other) :=
    if (set_len so <? set_len other)%Z then (other, so) else (so, other) in
  foldl (λ result entry,
           if set_contains so entry then set_add result entry else result)
        [] other.

(** [so - other] *)
Definition set_difference (so other : list A) : list A :=
  foldl (λ result entry,
           if set_contains other entry then result else set_add result entry)
        [] so.

(** [Scores.add] *)
Definition add (self : Scores) (reference_set predicted_set : list A)
  : Scores * (list A * list A) :=
  (mkScores (reference self + set_len reference_set)
            (predicted self + set_len predicted_set)
            (correct self + set_len (set_intersection reference_set predicted_set)),
   (set_difference reference_set predicted_set,
    set_difference predicted_set reference_set)).
End PySet.

(** ** Overlapping spans *)

Definition Span : Type := Z * Z.

(** [_OverlappingSpans.__eq__]: two nested loops, [True] at the first pair
    of spans that overlap. *)
Definition _OverlappingSpans_eq (self other : list Span) : bool :=
  existsb (λ '(self_start, self_end),
             existsb (λ '(other_start, other_end),
                        (self_start <? other_end)%Z && (other_start <? self_end)%Z)
                     other)
          self.

(** [_OverlappingSpans.__hash__] *)
Definition _OverlappingSpans_hash (self : list Span) : HashCode := HInt 0.

(** ** Score names

    The keys of the returned mapping: a type name, a [(type, property)]
    pair or a [(type, property, value)] triple.  The same three shapes are
    what [include] and [exclude] may hold. *)

Inductive Key :=
  | KType (type_name : string)
  | KProp (type_name prop_name : string)
  | KValue (type_name prop_name prop_value : string).

#[global] Instance Key_eq_dec : EqDecision Key.
Proof. solve_decision. Defined.

#[global] Instance Key_countable : Countable Key.
Proof.
  refine (inj_countable'
    (λ k, match k with
          | KType t => inl t
          | KProp t p => inr (inl (t, p))
          | KValue t p v => inr (inr (t, p, v))
          end)
    (λ x, match x with
          | inl t => KType t
          | inr (inl (t, p)) => KProp t p
          | inr (inr (t, p, v)) => KValue t p v
          end) _).
  by intros [].
Defined.

Definition key_items (k : Key) : list string :=
  match k with
  | KType t => [t]
  | KProp t p => [t; p]
  | KValue t p v => [t; p; v]
  end.

Definition key_hash (k : Key) : HashCode :=
  match k with
  | KType t => HStr t
  | _ => hash_tuple (HStr <$> key_items k)
  end.

(** ** [sorted]

    Strings compare bytewise, tuples of strings item by item and then by
    length. *)

Fixpoint items_leb (a b : list string) : bool :=
  match a, b with
  | [], _ => true
  | _ :: _, [] => false
  | x :: a', y :: b' =>
      match String.compare x y with
      | Lt => true
      | Gt => false
      | Eq => items_leb a' b'
      end
  end.

Definition key_leb (a b : Key) : bool := items_leb (key_items a) (key_items b).

Section Sorted.
Context {A : Type} (leb : A → A → bool).

Fixpoint sorted_insert (x : A) (l : list A) : list A :=
  match l with
  | [] => [x]
  | y :: l' => if leb x y then x :: l else y :: sorted_insert x l'
  end.

Definition sorted (l : list A) : list A := foldr sorted_insert [] l.
End Sorted.

(** ** [_group_by] *)

Section GroupBy.
Context {A : Type} (py_eq : A → A → bool) (py_hash : A → HashCode).
Context `{Countable K} (key_function : A → K).

(** [result[key_function(item)][index].add(item)] on a [defaultdict] whose
    default is a pair of empty sets; [index] is [0] for the reference
    side and [1] for the predicted side. *)
Definition group_add (index : nat) (result : gmap K (list A * list A)) (item : A)
  : gmap K (list A * list A) :=
  let '(r, p) := default ([], []) (result !! key_function item) in
  <[key_function item :=
      match index with
      | O => (set_add py_eq py_hash r item, p)
      | _ => (r, set_add py_eq py_hash p item)
      end]> result.

Definition _group_by (reference_iterable predicted_iterable : list A)
  : gmap K (list A * list A) :=
  foldl (λ result '(iterable, index), foldl (group_add index) result iterable)
        ∅ [(reference_iterable, 0%nat); (predicted_iterable, 1%nat)].
End GroupBy.

(** ** What [score_data] reads of an annotation

    [score_data] is duck-typed: it reads [type], [spans] and [properties]
    of whatever it is handed (an annotation, or its wrapper) and puts these
    objects, and tuples of them, into sets.  An [AnnotationModel] collects
    what that takes: the three attributes, whether a property value is a
    [basestring], and [__eq__] and [__hash__] of the annotations, of their
    spans and of their property values. *)

Record AnnotationModel := {
  Ann : Type;
  Spans : Type;
  Value : Type;
  ann_type : Ann → string;
  ann_spans : Ann → Spans;
  ann_properties : Ann → list (string * Value);
  value_basestring : Value → option string;
  ann_eq : Ann → Ann → bool;
  ann_hash : Ann → HashCode;
  spans_eq : Spans → Spans → bool;
  spans_hash : Spans → HashCode;
  value_eq : Value → Value → bool;
  value_hash : Value → HashCode
}.

Inductive Exn := AttributeError | IndexError | ValueError.

Section ScoreData.
Context (M : AnnotationModel).

(** A fact is one of the tuples [_props] builds: [(spans, key)] for the
    span of an annotation, [(spans, key, value)] for a property. *)
Record Fact := mkFact {
  fact_spans : Spans M;
  fact_key : Key;
  fact_value : option (Value M)
}.

(** tuple equality: same length, items equal one by one *)
Definition fact_eq (a b : Fact) : bool :=
  spans_eq M (fact_spans a) (fact_spans b)
  && bool_decide (fact_key a = fact_key b)
  && match fact_value a, fact_value b with
     | None, None => true
     | Some v, Some w => value_eq M v w
     | _, _ => false
     end.

Definition fact_hash (a : Fact) : HashCode :=
  hash_tuple ([spans_hash M (fact_spans a); key_hash (fact_key a)]
              ++ match fact_value a with
                 | Some v => [value_hash M v]
                 | None => []
                 end).

Context (include exclude : option (gset Key)).

(** [(type_name, prop_name) in keys]; [prop_name] may be [None], which no
    key holds *)
Definition in_pair (keys : gset Key) (type_name : string) (prop_name : option string)
  : bool :=
  match prop_name with
  | Some p => bool_decide (KProp type_name p ∈ keys)
  | None => false
  end.

(** [(type_name, prop_name, prop_value) in keys]; only a string value can
    be the third item of a key *)
Definition in_triple (keys : gset Key) (type_name : string)
    (prop_name : option string) (prop_value : option (Value M)) : bool :=
  match prop_name, prop_value ≫= value_basestring M with
  | Some p, Some v => bool_decide (KValue type_name p v ∈ keys)
  | _, _ => false
  end.

(** [_accept] *)
Definition _accept (type_name : string) (prop_name : option string)
    (prop_value : option (Value M)) : bool :=
  match include with
  | Some inc =>
      bool_decide (KType type_name ∈ inc)
      || in_pair inc type_name prop_name
      || in_triple inc type_name prop_name prop_value
  | None => true
  end
  && match exclude with
     | Some exc =>
         negb (bool_decide (KType type_name ∈ exc))
         && negb (in_pair exc type_name prop_name)
         && negb (in_triple exc type_name prop_name prop_value)
     | None => true
     end.

Definition fact_add := set_add fact_eq fact_hash.

(** the body of the inner loop of [_props]: one property of [ann] *)
Definition _props_property (ann : Ann M) (props : list Fact)
    (item : string * Value M) : list Fact :=
  let '(prop_name, prop_value) := item in
  let spans := ann_spans M ann in
  let props :=
    if _accept (ann_type M ann) (Some prop_name) None
    then fact_add props (mkFact spans (KProp (ann_type M ann) prop_name) (Some prop_value))
    else props in
  match value_basestring M prop_value with
  | Some text =>
      if _accept (ann_type M ann) (Some prop_name) (Some prop_value)
      then fact_add props
             (mkFact spans (KValue (ann_type M ann) prop_name text) (Some prop_value))
      else props
  | None => props
  end.

(** the body of the outer loop of [_props]: one annotation *)
Definition _props_annotation (props : list Fact) (ann : Ann M) : list Fact :=
  let spans := ann_spans M ann in
  let props :=
    if _accept (ann_type M ann) (Some "<span>") None
    then fact_add props (mkFact spans (KProp (ann_type M ann) "<span>") None)
    else props in
  foldl (_props_property ann) props (ann_properties M ann).

(** [_props] *)
Definition _props (annotations : list (Ann M)) : list Fact :=
  foldl _props_annotation [] annotations.

(** [result[name].add(reference, predicted)] on a [defaultdict] of
    [Scores]; the pair that [add] returns only feeds the debug log. *)
Definition result_add {A} (py_eq : A → A → bool) (py_hash : A → HashCode)
    (result : gmap Key Scores) (name : Key) (reference_set predicted_set : list A)
  : gmap Key Scores :=
  <[name := (add py_eq py_hash (default Scores_init (result !! name))
                 reference_set predicted_set).1]> result.

(** the body of the loop over the annotation types *)
Definition score_type (groups : gmap string (list (Ann M) * list (Ann M)))
    (result : gmap Key Scores) (ann_type : string) : gmap Key Scores :=
  let '(reference_annotations, predicted_annotations) :=
    default ([], []) (groups !! ann_type) in
  let result :=
    if _accept ann_type None None
    then result_add (ann_eq M) (ann_hash M) result (KType ann_type)
           reference_annotations predicted_annotations
    else result in
  let prop_groups :=
    _group_by fact_eq fact_hash fact_key
      (_props reference_annotations) (_props predicted_annotations) in
  foldl (λ result name,
           let '(reference_tuples, predicted_tuples) :=
             default ([], []) (prop_groups !! name) in
           result_add fact_eq fact_hash result name reference_tuples predicted_tuples)
        result
        (sorted key_leb (map fst (map_to_list prop_groups))).

(** [score_data] once both annotation lists are at hand *)
Definition score_annotations (reference_annotations predicted_annotations : list (Ann M))
  : gmap Key Scores :=
  let groups :=
    _group_by (ann_eq M) (ann_hash M) (ann_type M)
      reference_annotations predicted_annotations in
  foldl (score_type groups) ∅ (sorted String.leb (map fst (map_to_list groups))).

(** [score_data] with [annotation_wrapper=None]: a document is the list
    of its annotations, [None] is an absent document.  Reading
    [reference_data.annotations] of [None] raises. *)
Definition score_data (reference_data predicted_data : option (list (Ann M)))
  : Exn + gmap Key Scores :=
  match reference_data with
  | None => inl AttributeError
  | Some reference_annotations =>
      let predicted_annotations :=
        match predicted_data with
        | None => []
        | Some predicted_annotations => predicted_annotations
        end in
      inr (score_annotations reference_annotations predicted_annotations)
  end.
End ScoreData.

(** ** Annotations under the default equality

    Modelled from the spec: [anafora.AnaforaAnnotation] lives outside
    [eval.py].  An annotation has a type, the type of its parents, spans
    (a sequence of spans for an entity, one sequence per argument for a
    relation) and a mapping from property names to values, which are
    strings, numbers or other annotations.  Its [__eq__] is structural
    equality over spans, types and properties, nested annotations compared
    recursively, and its [__hash__] agrees with that equality;
    [_OverlappingWrapper._key] below mirrors the same four fields. *)

Inductive AnnSpans :=
  | EntitySpans (spans : list Span)
  | RelationSpans (spans : list (list Span)).

#[global] Instance AnnSpans_eq_dec : EqDecision AnnSpans.
Proof. solve_decision. Defined.

Inductive Annotation :=
  | mkAnnotation (type parents_type : string) (spans : AnnSpans)
                 (properties : gmap string PropValue)
with PropValue :=
  | VStr (s : string)
  | VNum (z : Z)
  | VAnn (a : Annotation).

Definition a_type (a : Annotation) : string :=
  match a with mkAnnotation t _ _ _ => t end.
Definition a_parents_type (a : Annotation) : string :=
  match a with mkAnnotation _ pt _ _ => pt end.
Definition a_spans (a : Annotation) : AnnSpans :=
  match a with mkAnnotation _ _ sp _ => sp end.
Definition a_properties (a : Annotation) : gmap string PropValue :=
  match a with mkAnnotation _ _ _ ps => ps end.

Fixpoint Annotation_eq_dec' (a b : Annotation) {struct a} : Decision (a = b)
with PropValue_eq_dec' (v w : PropValue) {struct v} : Decision (v = w).
Proof.
  - destruct a as [t pt sp ps], b as [t' pt' sp' ps'].
    destruct (decide (t = t')); [|right; congruence].
    destruct (decide (pt = pt')); [|right; congruence].
    destruct (decide (sp = sp')); [|right; congruence].
    destruct (@gmap_eq_dec string _ _ PropValue PropValue_eq_dec' ps ps');
      [left|right]; congruence.
  - destruct v as [s|z|a], w as [s'|z'|a']; try (right; congruence).
    + destruct (decide (s = s')); [left|right]; congruence.
    + destruct (decide (z = z')); [left|right]; congruence.
    + destruct (Annotation_eq_dec' a a'); [left|right]; congruence.
Defined.

#[global] Instance Annotation_eq_dec : EqDecision Annotation := Annotation_eq_dec'.
#[global] Instance PropValue_eq_dec : EqDecision PropValue := PropValue_eq_dec'.

Definition span_hash (s : Span) : HashCode := hash_tuple [HInt s.1; HInt s.2].

Definition AnnSpans_hash (sp : AnnSpans) : HashCode :=
  match sp with
  | EntitySpans spans => hash_tuple (span_hash <$> spans)
  | RelationSpans spans => hash_tuple ((λ arg, hash_tuple (span_hash <$> arg)) <$> spans)
  end.

Fixpoint Annotation_hash (a : Annotation) : HashCode :=
  match a with
  | mkAnnotation t pt sp ps =>
      hash_tuple
        [AnnSpans_hash sp; HStr t; HStr pt;
         hash_tuple (map_fold (λ n v items, hash_tuple [HStr n; PropValue_hash v] :: items)
                              [] ps)]
  end
with PropValue_hash (v : PropValue) : HashCode :=
  match v with
  | VStr s => HStr s
  | VNum z => HInt z
  | VAnn a => Annotation_hash a
  end.

Definition Exact : AnnotationModel := {|
  Ann := Annotation;
  Spans := AnnSpans;
  Value := PropValue;
  ann_type := a_type;
  ann_spans := a_spans;
  ann_properties := λ a, map_to_list (a_properties a);
  value_basestring := λ v, match v with VStr s => Some s | _ => None end;
  ann_eq := λ a b, bool_decide (a = b);
  ann_hash := Annotation_hash;
  spans_eq := λ a b, bool_decide (a = b);
  spans_hash := AnnSpans_hash;
  value_eq := λ a b, bool_decide (a = b);
  value_hash := PropValue_hash
|}.

(** ** The overlapping wrapper

    [_OverlappingWrapper.__init__] looks at object identities, so the
    annotations it wraps live in a heap: an object identity names an
    annotation object, and a property value carries its own identity next
    to what it is.  The properties of an annotation object are listed in
    the order [properties.items()] yields them. *)

Definition objid := positive.

Inductive PyValue :=
  | PStr (id : objid) (s : string)
  | PNum (id : objid) (z : Z)
  | PRef (id : objid).

#[global] Instance PyValue_eq_dec : EqDecision PyValue.
Proof. solve_decision. Defined.

(** [id(value)] *)
Definition value_id (value : PyValue) : objid :=
  match value with
  | PStr id _ | PNum id _ | PRef id => id
  end.

Record AnnObj := mkAnnObj {
  o_type : string;
  o_parents_type : string;
  o_spans : AnnSpans;
  o_properties : list (string * PyValue)
}.

(** [isinstance(value, anafora.AnaforaAnnotation)], with the object found *)
Definition as_annotation (heap : gmap objid AnnObj) (value : PyValue) : option AnnObj :=
  match value with
  | PRef id => heap !! id
  | _ => None
  end.

(** the [spans] attribute of a wrapper: one [_OverlappingSpans] for an
    entity, a tuple of them for a relation *)
Inductive WSpans :=
  | OverlappingSpans (spans : list Span)
  | OverlappingSpansTuple (args : list (list Span)).

Inductive Wrapper :=
  | mkWrapper (annotation : objid) (type parents_type : string) (spans : WSpans)
              (properties : gmap string WValue)
with WValue :=
  | WRaw (value : PyValue)
  | WWrapped (w : Wrapper).

Definition w_annotation (w : Wrapper) : objid :=
  match w with mkWrapper a _ _ _ _ => a end.
Definition w_type (w : Wrapper) : string :=
  match w with mkWrapper _ t _ _ _ => t end.
Definition w_parents_type (w : Wrapper) : string :=
  match w with mkWrapper _ _ pt _ _ => pt end.
Definition w_spans (w : Wrapper) : WSpans :=
  match w with mkWrapper _ _ _ sp _ => sp end.
Definition w_properties (w : Wrapper) : gmap string WValue :=
  match w with mkWrapper _ _ _ _ ps => ps end.

Definition wrap_spans (sp : AnnSpans) : WSpans :=
  match sp with
  | EntitySpans spans => OverlappingSpans spans
  | RelationSpans args => OverlappingSpansTuple args
  end.

(** The loop of [_OverlappingWrapper.__init__] over
    [annotation.properties.items()].  [seen] is one set shared by the whole
    recursion, so it is threaded through and returned.  A value whose
    identity is in [seen] is passed over: its property gets no entry in
    [self.properties].  [wrap_value] is the nested
    [_OverlappingWrapper(value, seen)]. *)
Fixpoint wrap_properties (heap : gmap objid AnnObj)
    (wrap_value : objid → AnnObj → gset objid → option (Wrapper * gset objid))
    (items : list (string * PyValue)) (properties : gmap string WValue)
    (seen : gset objid) : option (gmap string WValue * gset objid) :=
  match items with
  | [] => Some (properties, seen)
  | (name, value) :: items =>
      if decide (value_id value ∈ seen)
      then wrap_properties heap wrap_value items properties seen
      else
        let seen := {[value_id value]} ∪ seen in
        match as_annotation heap value with
        | Some obj =>
            '(w, seen) ← wrap_value (value_id value) obj seen;
            wrap_properties heap wrap_value items (<[name := WWrapped w]> properties) seen
        | None =>
            wrap_properties heap wrap_value items (<[name := WRaw value]> properties) seen
        end
  end.

(** [_OverlappingWrapper.__init__(annotation, seen)].  The recursion is
    bounded by [fuel]; [None] means the fuel ran out. *)
Fixpoint wrap (fuel : nat) (heap : gmap objid AnnObj) (annotation : objid)
    (obj : AnnObj) (seen : gset objid) : option (Wrapper * gset objid) :=
  match fuel with
  | O => None
  | S fuel =>
      '(properties, seen) ←
        wrap_properties heap (wrap fuel heap) (o_properties obj) ∅ seen;
      Some (mkWrapper annotation (o_type obj) (o_parents_type obj)
                      (wrap_spans (o_spans obj)) properties, seen)
  end.

(** [_OverlappingWrapper(annotation)], [seen=None]: a fresh empty set.  The
    set grows by an object of the heap at every nested call, so one unit of
    fuel per object and one for the call itself are enough. *)
Definition _OverlappingWrapper (heap : gmap objid AnnObj) (annotation : objid)
  : option Wrapper :=
  obj ← heap !! annotation;
  fst <$> wrap (S (size heap)) heap annotation obj ∅.

(** tuple equality over the [spans] attribute *)
Definition WSpans_eq (self other : WSpans) : bool :=
  match self, other with
  | OverlappingSpans a, OverlappingSpans b => _OverlappingSpans_eq a b
  | OverlappingSpansTuple a, OverlappingSpansTuple b =>
      bool_decide (length a = length b)
      && forallb (λ '(x, y), _OverlappingSpans_eq x y) (zip a b)
  | _, _ => false
  end.

Definition WSpans_hash (self : WSpans) : HashCode :=
  match self with
  | OverlappingSpans a => _OverlappingSpans_hash a
  | OverlappingSpansTuple args => hash_tuple (_OverlappingSpans_hash <$> args)
  end.

(** what [==] gives on two raw property values *)
Definition PyValue_eq (a b : PyValue) : bool :=
  match a, b with
  | PStr _ s, PStr _ t => bool_decide (s = t)
  | PNum _ x, PNum _ y => bool_decide (x = y)
  | PRef i, PRef j => bool_decide (i = j)
  | _, _ => false
  end.

Definition PyValue_hash (a : PyValue) : HashCode :=
  match a with
  | PStr _ s => HStr s
  | PNum _ z => HInt z
  | PRef i => HInt (Z.pos i)
  end.

(** [_OverlappingWrapper.__eq__]: [self._key() == other._key()], the keys
    being [(spans, type, parents_type, properties)].  Two [properties]
    dicts are equal when they have the same size and every entry of the
    first has an equal value under the same name in the second.  A wrapper
    never meets a raw value here inside a set (their hashes differ); the
    model answers [false] there. *)
Fixpoint Wrapper_eq (self other : Wrapper) {struct self} : bool :=
  match self with
  | mkWrapper _ t pt sp ps =>
      WSpans_eq sp (w_spans other)
      && bool_decide (t = w_type other)
      && bool_decide (pt = w_parents_type other)
      && bool_decide (size ps = size (w_properties other))
      && map_fold (λ name value rest,
                     match w_properties other !! name with
                     | Some value' => WValue_eq value value'
                     | None => false
                     end && rest) true ps
  end
with WValue_eq (value value' : WValue) {struct value} : bool :=
  match value, value' with
  | WRaw a, WRaw b => PyValue_eq a b
  | WWrapped w, WWrapped w' => Wrapper_eq w w'
  | _, _ => false
  end.

(** Modelled from the spec: [_OverlappingWrapper.__hash__] hashes
    [anafora._to_frozensets(self)], which is outside [eval.py].  It is the
    hash of the key with its containers frozen; all overlapping spans hash
    to [0], so wrappers that differ only in their spans share a hash. *)
Fixpoint Wrapper_hash (self : Wrapper) : HashCode :=
  match self with
  | mkWrapper _ t pt sp ps =>
      hash_tuple
        [WSpans_hash sp; HStr t; HStr pt;
         hash_tuple (map_fold (λ n v items, hash_tuple [HStr n; WValue_hash v] :: items)
                              [] ps)]
  end
with WValue_hash (v : WValue) : HashCode :=
  match v with
  | WRaw a => PyValue_hash a
  | WWrapped w => Wrapper_hash w
  end.

Definition Overlapping : AnnotationModel := {|
  Ann := Wrapper;
  Spans := WSpans;
  Value := WValue;
  ann_type := w_type;
  ann_spans := w_spans;
  ann_properties := λ w, map_to_list (w_properties w);
  value_basestring := λ v, match v with WRaw (PStr _ s) => Some s | _ => None end;
  ann_eq := Wrapper_eq;
  ann_hash := Wrapper_hash;
  spans_eq := WSpans_eq;
  spans_hash := WSpans_hash;
  value_eq := WValue_eq;
  value_hash := WValue_hash
|}.

(** [score_data] with [annotation_wrapper=_OverlappingWrapper]: a document
    is the list of the identities of its annotations in [heap]. *)
Definition score_data_overlapping (heap : gmap objid AnnObj)
    (include exclude : option (gset Key))
    (reference_data predicted_data : option (list objid))
  : option (Exn + gmap Key Scores) :=
  match reference_data with
  | None => Some (inl AttributeError)
  | Some reference_annotations =>
      let predicted_annotations := default [] predicted_data in
      reference_annotations ← mapM (_OverlappingWrapper heap) reference_annotations;
      predicted_annotations ← mapM (_OverlappingWrapper heap) predicted_annotations;
      Some (inr (score_annotations Overlapping include exclude
                   reference_annotations predicted_annotations))
  end.

(** ** The corpus driver

    What [score_dirs] and [_load_and_remove_errors] do beyond pure
    computation is write warnings to the log and raise; both are kept in a
    small monad.  [Diverged] is the outcome of a loop that ran out of the
    fuel the model gave it. *)

Inductive LogRecord :=
  | NoSuchFile (xml_path : string)
  | IgnoringInvalidXML (xml_path : string)
  | RemovingInvalidAnnotation (xml_path : string)
  | MultipleReferenceFiles (reference_xml_names : list string)
  | MultiplePredictedFiles (predicted_xml_paths : list string).

Inductive Outcome (X : Type) :=
  | Returned (x : X)
  | Raised (e : Exn)
  | Diverged.
Arguments Returned {X} x.
Arguments Raised {X} e.
Arguments Diverged {X}.

Definition Eff (X : Type) : Type := list LogRecord → Outcome X * list LogRecord.

#[global] Instance Eff_ret : MRet Eff := λ X x log, (Returned x, log).

#[global] Instance Eff_bind : MBind Eff := λ X Y k m log,
  match m log with
  | (Returned x, log) => k x log
  | (Raised e, log) => (Raised e, log)
  | (Diverged, log) => (Diverged, log)
  end.

(** [logging.warn] *)
Definition warn (r : LogRecord) : Eff () := λ log, (Returned (), log ++ [r]).

Definition raise {X} (e : Exn) : Eff X := λ log, (Raised e, log).

Definition diverge {X} : Eff X := λ log, (Diverged, log).

(** the contents of a path that exists: XML that does not parse, or the
    annotations of the document it holds *)
Inductive FileContent (R : Type) :=
  | InvalidXML
  | ValidXML (annotations : list R).
Arguments InvalidXML {R}.
Arguments ValidXML {R} annotations.

(** The collaborators of the driver: [anafora.walk] (the sub-directory and
    the XML names found for each document unit), [glob.glob], the files,
    and [schema.errors] (the annotations it flags). *)
Record World (R : Type) := {
  walk : string → list (string * list string);
  glob : string → list string;
  file : string → option (FileContent R);
  schema_errors : list R → list R
}.
Arguments walk {R}.
Arguments glob {R}.
Arguments file {R}.
Arguments schema_errors {R}.

(** [os.path.join] of relative components *)
Definition path_join (parts : list string) : string :=
  match parts with
  | [] => ""
  | p :: parts => foldl (λ path part, path +:+ "/" +:+ part) p parts
  end.

Section ScoreDirs.
Context {R : Type} (raw_eq : R → R → bool) (world : World R).
Context (score_data : option (list R) → option (list R) → Exn + gmap Key Scores).

(** [list.remove]: drops the first item equal to [x], raises [ValueError]
    when there is none *)
Fixpoint list_remove (x : R) (l : list R) : option (list R) :=
  match l with
  | [] => None
  | y :: l' => if raw_eq y x then Some l' else cons y <$> list_remove x l'
  end.

(** the [for] loop over the errors of one pass *)
Fixpoint remove_errors (xml_path : string) (errors : list R) (annotations : list R)
  : Eff (list R) :=
  match errors with
  | [] => mret annotations
  | annotation :: errors =>
      _ ← warn (RemovingInvalidAnnotation xml_path);
      match list_remove annotation annotations with
      | None => raise ValueError
      | Some annotations => remove_errors xml_path errors annotations
      end
  end.

(** the [while errors] loop *)
Fixpoint remove_while_errors (fuel : nat) (xml_path : string) (annotations : list R)
  : Eff (list R) :=
  match schema_errors world annotations with
  | [] => mret annotations
  | errors =>
      match fuel with
      | O => diverge
      | S fuel =>
          annotations ← remove_errors xml_path errors annotations;
          remove_while_errors fuel xml_path annotations
      end
  end.

(** [_load_and_remove_errors]; a pass of the loop that does not raise
    drops at least one annotation, so one unit of fuel per annotation and
    one for the last pass are enough. *)
Definition _load_and_remove_errors (xml_path : string) : Eff (option (list R)) :=
  match file world xml_path with
  | None => _ ← warn (NoSuchFile xml_path); mret None
  | Some InvalidXML => _ ← warn (IgnoringInvalidXML xml_path); mret None
  | Some (ValidXML annotations) =>
      annotations ← remove_while_errors (S (length annotations)) xml_path annotations;
      mret (Some annotations)
  end.

(** [[name] = names], and in the [except ValueError] branch the warning
    and [names[0]] *)
Definition single_or_first (names : list string) (warning : LogRecord) : Eff string :=
  match names with
  | [name] => mret name
  | [] => _ ← warn warning; raise IndexError
  | name :: _ => _ ← warn warning; mret name
  end.

(** [result[name].update(scores)] for every item of [named_scores] *)
Definition update_all (result named_scores : gmap Key Scores) : gmap Key Scores :=
  map_fold (λ name scores result,
              <[name := update (default Scores_init (result !! name)) scores]> result)
           result named_scores.

(** the body of the loop of [score_dirs]: one document unit *)
Definition score_unit (reference_dir predicted_dir : string)
    (result : gmap Key Scores) (unit : string * list string) : Eff (gmap Key Scores) :=
  let '(sub_dir, reference_xml_names) := unit in
  reference_xml_name ←
    single_or_first reference_xml_names (MultipleReferenceFiles reference_xml_names);
  let reference_xml_path := path_join [reference_dir; sub_dir; reference_xml_name] in
  let predicted_xml_paths :=
    glob world (path_join [predicted_dir; sub_dir; sub_dir +:+ "*.xml"]) in
  predicted_xml_path ←
    single_or_first predicted_xml_paths (MultiplePredictedFiles predicted_xml_paths);
  reference_data ← _load_and_remove_errors reference_xml_path;
  predicted_data ← _load_and_remove_errors predicted_xml_path;
  match score_data reference_data predicted_data with
  | inl e => raise e
  | inr named_scores => mret (update_all result named_scores)
  end.

(** [score_dirs] *)
Definition score_dirs (reference_dir predicted_dir : string) : Eff (gmap Key Scores) :=
  foldl (λ acc unit, result ← acc; score_unit reference_dir predicted_dir result unit)
        (mret ∅) (walk world reference_dir).
End ScoreDirs.

(** ** The two-document scenario *)

Definition doc_alice : list Annotation :=
  [mkAnnotation "Person" "" (EntitySpans [(0, 5)%Z]) {["name" := VStr "Alice"]}].

Definition doc_bob : list Annotation :=
  [mkAnnotation "Person" "" (EntitySpans [(0, 5)%Z]) {["name" := VStr "Bob"]}].

(** ** Notions used in the statements *)

(** the invariant of a [Scores] object that the spec discusses *)
Definition bounded (s : Scores) : Prop :=
  (correct s ≤ Z.min (reference s) (predicted s))%Z.

(** a list that [add] could have built: no entry matches an earlier one *)
Inductive set_wf {A : Type} (py_eq : A → A → bool) (py_hash : A → HashCode)
  : list A → Prop :=
  | set_wf_nil : set_wf py_eq py_hash []
  | set_wf_snoc so key :
      set_wf py_eq py_hash so →
      set_contains py_eq py_hash so key = false →
      set_wf py_eq py_hash (so ++ [key]).

Section SetScores.
Context {A : Type} (py_eq : A → A → bool) (py_hash : A → HashCode).


End SetScores.

(** the type a score name belongs to *)
Definition key_type (k : Key) : string :=
  match k with
  | KType t | KProp t _ | KValue t _ _ => t
  end.

Section ScoreDataNotions.
Context (M : AnnotationModel) (include exclude : option (gset Key)).

(** the facts of two sets of annotations, grouped by their key *)
Definition prop_groups_of (reference_annotations predicted_annotations : list (Ann M))
  : gmap Key (list (Fact M) * list (Fact M)) :=
  _group_by (fact_eq M) (fact_hash M) (fact_key M)
    (_props M include exclude reference_annotations)
    (_props M include exclude predicted_annotations).

(** what one round of the loop over the types does to the entry of [k] *)
Definition type_scores (groups : gmap string (list (Ann M) * list (Ann M)))
    (t : string) (k : Key) (o : option Scores) : option Scores :=
  let rp := default ([], []) (groups !! t) in
  let o1 :=
    if decide (k = KType t)
    then if _accept M include exclude t None None
         then Some (add (ann_eq M) (ann_hash M) (default Scores_init o) rp.1 rp.2).1
         else o
    else o in
  match prop_groups_of rp.1 rp.2 !! k with
  | Some (rt, pt) => Some (add (fact_eq M) (fact_hash M) (default Scores_init o1) rt pt).1
  | None => o1
  end.

(** the tuples the inner loop of [_props] hands to [props.add] for one
    property, in order *)
Definition property_candidates (ann : Ann M) (item : string * Value M) : list (Fact M) :=
  (if _accept M include exclude (ann_type M ann) (Some item.1) None
   then [mkFact M (ann_spans M ann) (KProp (ann_type M ann) item.1) (Some item.2)]
   else [])
  ++ match value_basestring M item.2 with
     | Some text =>
         if _accept M include exclude (ann_type M ann) (Some item.1) (Some item.2)
         then [mkFact M (ann_spans M ann) (KValue (ann_type M ann) item.1 text)
                 (Some item.2)]
         else []
     | None => []
     end.

(** the tuples [_props] hands to [props.add] for one annotation, in order *)
Definition fact_candidates (ann : Ann M) : list (Fact M) :=
  (if _accept M include exclude (ann_type M ann) (Some "<span>") None
   then [mkFact M (ann_spans M ann) (KProp (ann_type M ann) "<span>") None]
   else [])
  ++ (ann_properties M ann ≫= property_candidates ann).


End ScoreDataNotions.

(** ** Three overlapping annotations

    One type, three entities: the spans of [1] and [2] are apart, the span
    of [3] overlaps both. *)

Definition heap_chain : gmap objid AnnObj :=
  <[1%positive := mkAnnObj "Event" "" (EntitySpans [(0, 5)%Z]) []]>
  (<[2%positive := mkAnnObj "Event" "" (EntitySpans [(6, 10)%Z]) []]>
  (<[3%positive := mkAnnObj "Event" "" (EntitySpans [(3, 8)%Z]) []]> ∅)).

(** what [score_data] returns on the three annotations, the two that are
    apart as reference and the third as predicted *)
Definition chain_scores : gmap Key Scores :=
  match score_data_overlapping heap_chain None None
          (Some [1; 2]%positive) (Some [3%positive]) with
  | Some (inr r) => r
  | _ => ∅
  end.


#[global] Instance Exact_Fact_eq_dec : EqDecision (Fact Exact).
Proof.
  intros [s k v] [s' k' v'].
  destruct (AnnSpans_eq_dec s s'); [|right; congruence].
  destruct (Key_eq_dec k k'); [|right; congruence].
  destruct (option_eq_dec (dec := PropValue_eq_dec) v v'); [|right; congruence].
  left; congruence.
Defined.



(** ** Two annotations that refer to each other *)

Definition heap_cycle : gmap objid AnnObj :=
  <[1%positive := mkAnnObj "A" "" (EntitySpans [(0, 5)%Z]) [("p", PRef 2%positive)]]>
  (<[2%positive := mkAnnObj "B" "" (EntitySpans [(6, 9)%Z]) [("q", PRef 1%positive)]]> ∅).

(** ** An annotation with four properties

    [A.p] and [A.q] are the same object [B], [A.r] is a string and [A.s] is
    [C]; nothing refers back. *)

Definition obj_shared : AnnObj :=
  mkAnnObj "A" "" (EntitySpans [(0, 5)%Z])
    [("p", PRef 2%positive); ("q", PRef 2%positive);
     ("r", PStr 4%positive "x"); ("s", PRef 3%positive)].

Definition heap_shared : gmap objid AnnObj :=
  <[1%positive := obj_shared]>
  (<[2%positive := mkAnnObj "B" "" (EntitySpans [(6, 9)%Z]) []]>
  (<[3%positive := mkAnnObj "C" "" (EntitySpans [(10, 12)%Z]) []]> ∅)).

(** the wrapper of [A] *)
Definition wrapper_shared : Wrapper :=
  mkWrapper 1%positive "A" "" (OverlappingSpans [(0, 5)%Z])
    (<["s" := WWrapped (mkWrapper 3%positive "C" "" (OverlappingSpans [(10, 12)%Z]) ∅)]>
    (<["r" := WRaw (PStr 4%positive "x")]>
    (<["p" := WWrapped (mkWrapper 2%positive "B" "" (OverlappingSpans [(6, 9)%Z]) ∅)]>
     ∅))).

(** ** A corpus of two document units

    Both units have one reference file and one predicted file, and a schema
    that flags nothing.  In [corpus] every file parses; the variants break
    one file of the first unit. *)

Definition corpus_files (path : string) : option (FileContent Annotation) :=
  if decide (path = "ref/doc1/doc1.xml") then Some (ValidXML doc_alice)
  else if decide (path = "pred/doc1/doc1.xml") then Some (ValidXML doc_bob)
  else if decide (path = "ref/doc2/doc2.xml") then Some (ValidXML doc_alice)
  else if decide (path = "pred/doc2/doc2.xml") then Some (ValidXML doc_alice)
  else None.

Definition corpus_glob (pattern : string) : list string :=
  if decide (pattern = "pred/doc1/doc1*.xml") then ["pred/doc1/doc1.xml"]
  else if decide (pattern = "pred/doc2/doc2*.xml") then ["pred/doc2/doc2.xml"]
  else [].

Definition corpus : World Annotation := {|
  walk := λ _, [("doc1", ["doc1.xml"]); ("doc2", ["doc2.xml"])];
  glob := corpus_glob;
  file := corpus_files;
  schema_errors := λ _, []
|}.

(** the file at [path] replaced by [content] *)
Definition with_file (world : World Annotation) (path : string)
    (content : option (FileContent Annotation)) : World Annotation := {|
  walk := walk world;
  glob := glob world;
  file := λ p, if decide (p = path) then content else file world p;
  schema_errors := schema_errors world
|}.

(** no predicted file matches the pattern of the first unit *)
Definition corpus_without_predicted : World Annotation := {|
  walk := walk corpus;
  glob := λ pattern, if decide (pattern = "pred/doc1/doc1*.xml") then [] else glob corpus pattern;
  file := file corpus;
  schema_errors := schema_errors corpus
|}.

(** [score_dirs] on annotations compared by the default equality *)
Definition score_dirs_exact (world : World Annotation) : Eff (gmap Key Scores) :=
  score_dirs (λ a b, bool_decide (a = b)) world (score_data Exact None None) "ref" "pred".

(** what a run returned, if it returned *)
Definition returned {X : Type} (d : X) (run : Outcome X * list LogRecord) : X :=
  match run.1 with
  | Returned x => x
  | _ => d
  end.

Definition is_returned {X : Type} (run : Outcome X * list LogRecord) : bool :=
  match run.1 with
  | Returned _ => true
  | _ => false
  end.

(** the totals of the corpus whose first predicted file does not parse *)
Definition corpus_totals : gmap Key Scores :=
  returned ∅ (score_dirs_exact (with_file corpus "pred/doc1/doc1.xml" (Some InvalidXML)) []).

(** a name passes the filter: some granularity of it is included (when
    there is an [include]) and none is excluded *)
Definition key_passes (include exclude : option (gset Key)) (k : Key) : Prop :=
  (∀ inc, include = Some inc →
     (KType (key_type k) ∈ inc) ∨ (k ∈ inc)
     ∨ (∃ t p v, k = KValue t p v ∧ KProp t p ∈ inc))
  ∧ (∀ exc, exclude = Some exc →
       (KType (key_type k) ∉ exc) ∧ (k ∉ exc)
       ∧ (∀ t p v, k = KValue t p v → KProp t p ∉ exc)).

(** the counters with the two sides exchanged *)
Definition swap_scores (s : Scores) : Scores :=
  mkScores (predicted s) (reference s) (correct s).

(** a run that does not run out of fuel, and whose result, if it returns
    one, satisfies [Q] *)
Definition run_ok {X : Type} (Q : X → Prop) (m : Eff X) : Prop :=
  ∀ log, match (m log).1 with
         | Returned x => Q x
         | Raised _ => True
         | Diverged => False
         end.

(** counters that [score_data] can have produced, summed over documents *)
Definition counted (s : Scores) : Prop :=
  (0 ≤ correct s)%Z ∧ bounded s ∧ (1 ≤ reference s + predicted s)%Z.

(** ** Score names on the command line and in the printed table

    A score name as Python has it: a string, or a tuple of strings. *)

Inductive ScoreName :=
  | NameStr (s : string)
  | NameTuple (items : list string).

(** the name under which [score_data] files a key *)
Definition key_name (k : Key) : ScoreName :=
  match k with
  | KType t => NameStr t
  | _ => NameTuple (key_items k)
  end.

(** [string.split(":")] *)
Fixpoint split_colons (s : string) : list string :=
  match s with
  | EmptyString => [EmptyString]
  | String c rest =>
      if Ascii.eqb c ":"%char then EmptyString :: split_colons rest
      else match split_colons rest with
           | first :: others => String c first :: others
           | [] => [String c EmptyString]
           end
  end.

(** [":".join(name)] *)
Fixpoint join_colons (items : list string) : string :=
  match items with
  | [] => EmptyString
  | [item] => item
  | item :: rest => item +:+ String ":"%char (join_colons rest)
  end.

(** [split_tuple_on_colons], the [type] of [--include] and [--exclude] *)
Definition split_tuple_on_colons (s : string) : ScoreName :=
  match split_colons s with
  | [item] => NameStr item
  | result => NameTuple result
  end.

(** [_score_name] of [_print_scores] *)
Definition _score_name (name : ScoreName) : string :=
  match name with
  | NameTuple items => join_colons items
  | NameStr s => s
  end.

Fixpoint no_colon (s : string) : bool :=
  match s with
  | EmptyString => true
  | String c rest => negb (Ascii.eqb c ":"%char) && no_colon rest
  end.

(** what an entry of a wrapper's properties says about the value it was
    made from: a raw entry is a value that is no annotation, a wrapped one
    the wrapper of the annotation the value refers to *)
Definition entry_of (heap : gmap objid AnnObj) (value : PyValue) (v : WValue) : Prop :=
  match v with
  | WRaw value' => value' = value ∧ as_annotation heap value = None
  | WWrapped w =>
      ∃ obj, as_annotation heap value = Some obj
             ∧ w_annotation w = value_id value
             ∧ w_type w = o_type obj
             ∧ w_parents_type w = o_parents_type obj
             ∧ w_spans w = wrap_spans (o_spans obj)
  end.

(** ** The multi-annotator driver

    [score_annotators] logs one warning of its own next to those of the
    loader. *)

Inductive AnnotatorsLogRecord :=
  | FewerThanTwoAnnotators (sub_dir : string) (xml_names : list string)
  | Loader (r : LogRecord).

Definition EffA (X : Type) : Type :=
  list AnnotatorsLogRecord → Outcome X * list AnnotatorsLogRecord.

#[global] Instance EffA_ret : MRet EffA := λ X x log, (Returned x, log).

#[global] Instance EffA_bind : MBind EffA := λ X Y k m log,
  match m log with
  | (Returned x, log) => k x log
  | (Raised e, log) => (Raised e, log)
  | (Diverged, log) => (Diverged, log)
  end.

Definition warnA (r : AnnotatorsLogRecord) : EffA () := λ log, (Returned (), log ++ [r]).

Definition raiseA {X} (e : Exn) : EffA X := λ log, (Raised e, log).

(** a step of the loader inside the driver: its warnings join the log *)
Definition loading {X} (m : Eff X) : EffA X := λ log,
  let '(o, records) := m [] in (o, log ++ (Loader <$> records)).

(** [needle in hay] on strings *)
Fixpoint str_contains (needle hay : string) : bool :=
  String.prefix needle hay
  || match hay with
     | EmptyString => false
     | String _ rest => str_contains needle rest
     end.

(** [[^.]*] at the start of [s]: the longest dot-free prefix, and what
    follows it.  The expression never has to give back part of such a run:
    what comes next in it is a dot, and no character of the run is one. *)
Fixpoint dot_free (s : string) : string * string :=
  match s with
  | EmptyString => (EmptyString, EmptyString)
  | String c rest =>
      if Ascii.eqb c "."%char then (EmptyString, s)
      else let '(run, tail) := dot_free rest in (String c run, tail)
  end.

(** [$] without [re.MULTILINE]: the end of the string, or the place before
    a newline that ends the string *)
Definition at_dollar (s : string) : bool :=
  match s with
  | EmptyString => true
  | String c EmptyString => Ascii.eqb c "010"%char
  | _ => false
  end.

(** [annotator_name_regex] matched at the start of [s]; the result is
    [group(1)] *)
Definition annotator_name_match (s : string) : option string :=
  let '(group1, tail) := dot_free s in
  match tail with
  | String "." tail =>
      match (dot_free tail).2 with
      | String "." (String "x" (String "m" (String "l" tail))) =>
          if at_dollar tail then Some group1 else None
      | _ => None
      end
  | _ => None
  end.

(** [re.search(annotator_name_regex, xml_name)]: the match at the leftmost
    position that has one; [None] is no match, whose [.group(1)] raises
    [AttributeError]. *)
Fixpoint annotator_name (xml_name : string) : option string :=
  match annotator_name_match xml_name with
  | Some group1 => Some group1
  | None =>
      match xml_name with
      | EmptyString => None
      | String _ rest => annotator_name rest
      end
  end.

(** [make_prefix]: the first two of the sorted annotators around [-vs-];
    [None] is the [IndexError] of a format with fewer than two arguments *)
Definition make_prefix (annotators : list string) : option string :=
  match sorted String.leb annotators with
  | a :: b :: _ => Some (a +:+ "-vs-" +:+ b)
  | _ => None
  end.

(** [a if a == "gold" else "annotator"] *)
Definition general_name (a : string) : string :=
  if decide (a = "gold") then a else "annotator".

(** a name as a tuple: [name = name,] for a string *)
Definition name_tuple (k : Key) : list string := key_items k.

Section ScoreAnnotators.
Context {R : Type} (raw_eq : R → R → bool) (world : World R).
Context (st_size : string → Z).
Context (score_data : option (list R) → option (list R) → Exn + gmap Key Scores).

(** [result[key].update(scores)] on the [defaultdict] of the driver *)
Definition update_at (result : gmap (list string) Scores) (key : list string)
    (scores : Scores) : gmap (list string) Scores :=
  <[key := update (default Scores_init (result !! key)) scores]> result.

(** the loop over [named_scores.items()] *)
Definition update_labelled (prefix general_prefix : string)
    (result : gmap (list string) Scores) (named_scores : gmap Key Scores)
  : gmap (list string) Scores :=
  map_fold (λ name scores result,
              let result := update_at result (prefix :: name_tuple name) scores in
              update_at result (general_prefix :: name_tuple name) scores)
           result named_scores.

(** the loop that fills [annotator_data] *)
Fixpoint load_annotators (anafora_dir sub_dir : string) (xml_names : list string)
    (annotator_data : list (string * option (list R)))
  : EffA (list (string * option (list R))) :=
  match xml_names with
  | [] => mret annotator_data
  | xml_name :: xml_names =>
      if str_contains ".inprogress." xml_name
      then load_annotators anafora_dir sub_dir xml_names annotator_data
      else
        match annotator_name xml_name with
        | None => raiseA AttributeError
        | Some name =>
            let xml_path := path_join [anafora_dir; sub_dir; xml_name] in
            if (st_size xml_path =? 0)%Z
            then load_annotators anafora_dir sub_dir xml_names annotator_data
            else
              data ← loading (_load_and_remove_errors raw_eq world xml_path);
              load_annotators anafora_dir sub_dir xml_names
                (annotator_data ++ [(name, data)])
        end
  end.

(** the body of the loop over [j]: one pair of annotators *)
Definition score_pair (sub_dir : string) (first : string * option (list R))
    (result : gmap (list string) Scores) (second : string * option (list R))
  : EffA (gmap (list string) Scores) :=
  let '(annotator1, data1) := first in
  let '(annotator2, data2) := second in
  match make_prefix [annotator1; annotator2],
        make_prefix (general_name <$> [annotator1; annotator2]) with
  | Some prefix, Some general_prefix =>
      match score_data data1 data2 with
      | inl e => raiseA e
      | inr named_scores =>
          mret (update_labelled prefix general_prefix result named_scores)
      end
  | _, _ => raiseA IndexError
  end.

(** the loops over [i] and [j]: every annotator with each later one *)
Fixpoint score_pairs (sub_dir : string) (annotator_data : list (string * option (list R)))
    (result : gmap (list string) Scores) : EffA (gmap (list string) Scores) :=
  match annotator_data with
  | [] => mret result
  | first :: others =>
      result ← foldl (λ acc second, result ← acc; score_pair sub_dir first result second)
                     (mret result) others;
      score_pairs sub_dir others result
  end.

(** the body of the loop of [score_annotators]: one document unit *)
Definition score_annotators_unit (anafora_dir : string)
    (result : gmap (list string) Scores) (unit : string * list string)
  : EffA (gmap (list string) Scores) :=
  let '(sub_dir, xml_names) := unit in
  if bool_decide (length xml_names < 2)%nat
  then _ ← warnA (FewerThanTwoAnnotators sub_dir xml_names); mret result
  else
    annotator_data ← load_annotators anafora_dir sub_dir xml_names [];
    score_pairs sub_dir annotator_data result.

(** [score_annotators]; [walk world] stands for [anafora.walk] with the
    caller's [xml_name_regex] *)
Definition score_annotators (anafora_dir : string) : EffA (gmap (list string) Scores) :=
  foldl (λ acc unit, result ← acc; score_annotators_unit anafora_dir result unit)
        (mret ∅) (walk world anafora_dir).
End ScoreAnnotators.

(** [run_ok] for the runs of the multi-annotator driver *)
Definition run_okA {X : Type} (Q : X → Prop) (m : EffA X) : Prop :=
  ∀ log, match (m log).1 with
         | Returned x => Q x
         | Raised _ => True
         | Diverged => False
         end.

(** the key a tuple of one, two or three strings stands for *)
Definition tuple_key (items : list string) : option Key :=
  match items with
  | [t] => Some (KType t)
  | [t; p] => Some (KProp t p)
  | [t; p; v] => Some (KValue t p v)
  | _ => None
  end.

(** * Properties *)

(** ** The measures of a [Scores] object *)

(** C2 (as the code has it): [precision] is [correct/predicted] for a positive
    [predicted] and [1] for [predicted = 0]; [recall] likewise over
    [reference]; [f1] is [0] whenever [precision + recall] is [0] and the
    harmonic mean [2*p*r/(p+r)] otherwise. *)
Theorem scores_measures (s : Scores) :
  ((0 < predicted s)%Z → precision s = (inject_Z (correct s) / inject_Z (predicted s))%Q)
  ∧ (predicted s = 0%Z → precision s = 1%Q)
  ∧ ((0 < reference s)%Z → recall s = (inject_Z (correct s) / inject_Z (reference s))%Q)
  ∧ (reference s = 0%Z → recall s = 1%Q)
  ∧ ((precision s + recall s == 0)%Q → f1 s = 0%Q)
  ∧ (¬ (precision s + recall s == 0)%Q →
     f1 s = (2 * precision s * recall s / (precision s + recall s))%Q).
Proof.
  unfold f1, precision, recall.
  repeat split.
  - intros Hp. destruct (Z.eqb_spec (predicted s) 0); [lia|done].
  - by intros ->.
  - intros Hr. destruct (Z.eqb_spec (reference s) 0); [lia|done].
  - by intros ->.
  - intros Hz. apply Qeq_bool_iff in Hz. by rewrite Hz.
  - intros Hz. destruct (Qeq_bool _ 0) eqn:E; [|done].
    by apply Qeq_bool_iff in E.
Qed.

(** C2, the reading that fails: with nothing in the reference and one
    predicted item, [f1] is [0] although [precision + recall] is [1]. *)
Lemma f1_zero_without_zero_sum :
  let s := mkScores 0 1 0 in
  (f1 s == 0)%Q ∧ ¬ (precision s + recall s == 0)%Q.
Proof. split; [reflexivity|discriminate]. Qed.

(** ** Overlapping spans *)

Lemma _OverlappingSpans_eq_spec (a b : list Span) :
  _OverlappingSpans_eq a b = true ↔
  ∃ s t, s ∈ a ∧ t ∈ b ∧ (s.1 < t.2)%Z ∧ (t.1 < s.2)%Z.
Proof.
  unfold _OverlappingSpans_eq. rewrite existsb_exists. split.
  - intros ([s1 s2] & Hs%list_elem_of_In & Ht). apply existsb_exists in Ht.
    destruct Ht as ([t1 t2] & Ht%list_elem_of_In & Hlt).
    apply andb_true_iff in Hlt as [?%Z.ltb_lt ?%Z.ltb_lt].
    by exists (s1, s2), (t1, t2).
  - intros ([s1 s2] & [t1 t2] & Hs & Ht & H1 & H2). simpl in *.
    exists (s1, s2). split; [by apply list_elem_of_In|].
    apply existsb_exists. exists (t1, t2). split; [by apply list_elem_of_In|].
    apply andb_true_iff. by split; apply Z.ltb_lt.
Qed.

(** C4: two [_OverlappingSpans] compare equal iff a span of one and a span
    of the other satisfy [a.start < b.end] and [b.start < a.end]; [(0,5)]
    and [(3,8)] are equal, [(0,5)] and [(5,10)] are not. *)
Theorem overlapping_spans_equal (a b : list Span) :
  (_OverlappingSpans_eq a b = true ↔
   ∃ s t, s ∈ a ∧ t ∈ b ∧ (s.1 < t.2)%Z ∧ (t.1 < s.2)%Z)
  ∧ _OverlappingSpans_eq [(0, 5)%Z] [(3, 8)%Z] = true
  ∧ _OverlappingSpans_eq [(0, 5)%Z] [(5, 10)%Z] = false.
Proof. split; [apply _OverlappingSpans_eq_spec|done]. Qed.

(** C5 (as the code has it): a span list that holds at least one span, all
    of whose spans have [start < end], compares equal to itself. *)
Theorem overlapping_spans_reflexive (spans : list Span) :
  spans ≠ [] →
  (∀ s, s ∈ spans → (s.1 < s.2)%Z) →
  _OverlappingSpans_eq spans spans = true.
Proof.
  intros Hne Hlt. destruct spans as [|s spans]; [done|].
  apply _OverlappingSpans_eq_spec. exists s, s.
  assert (s ∈ s :: spans) by apply list_elem_of_here.
  repeat split; auto.
Qed.

Lemma overlapping_spans_reflexive_witness :
  _OverlappingSpans_eq [(0, 5)%Z; (7, 9)%Z] [(0, 5)%Z; (7, 9)%Z] = true.
Proof.
  apply overlapping_spans_reflexive; [done|].
  intros s Hs. repeat (apply elem_of_cons in Hs as [->|Hs]; [simpl; lia|]).
  by apply not_elem_of_nil in Hs.
Defined.

(** C5, where it fails: the empty span list has only spans with
    [start < end], and does not compare equal to itself. *)
Lemma overlapping_spans_empty_not_reflexive :
  (∀ s : Span, s ∈ [] → (s.1 < s.2)%Z) ∧ _OverlappingSpans_eq [] [] = false.
Proof. split; [by intros s Hs%not_elem_of_nil|done]. Qed.

(** ** The two-document scenario *)

(** C1 (as the code has it): the two annotations differ in [name], so they
    are not equal and [Person] scores [(1,1,0)] with [f1 = 0]; the spans
    agree, so [(Person, <span>)] scores [(1,1,1)] with [f1 = 1];
    [(Person, name)] scores [(1,1,0)] with [f1 = 0], [(Person, name,
    Alice)] scores [(1,0,0)] and [(Person, name, Bob)] scores [(0,1,0)]. *)
Theorem score_data_alice_bob :
  ∃ r, score_data Exact None None (Some doc_alice) (Some doc_bob) = inr r
  ∧ r !! KType "Person" = Some (mkScores 1 1 0)
  ∧ r !! KProp "Person" "<span>" = Some (mkScores 1 1 1)
  ∧ r !! KProp "Person" "name" = Some (mkScores 1 1 0)
  ∧ r !! KValue "Person" "name" "Alice" = Some (mkScores 1 0 0)
  ∧ r !! KValue "Person" "name" "Bob" = Some (mkScores 0 1 0)
  ∧ size r = 5%nat
  ∧ (f1 (mkScores 1 1 0) == 0)%Q ∧ (f1 (mkScores 1 1 1) == 1)%Q.
Proof. eexists. split; [reflexivity|]. by vm_compute. Qed.

(** C1, where it fails: the key [Person] does not score [(1,1,1)]. *)
Lemma score_data_alice_bob_person :
  ∃ r, score_data Exact None None (Some doc_alice) (Some doc_bob) = inr r
  ∧ r !! KType "Person" ≠ Some (mkScores 1 1 1).
Proof. eexists. split; [reflexivity|]. by vm_compute. Qed.

(** ** Python sets *)

Section PySetFacts.
Context {A : Type} (py_eq : A → A → bool) (py_hash : A → HashCode).
Local Abbreviation set_wf := (set_wf py_eq py_hash).

Lemma set_contains_app so so' key :
  set_contains py_eq py_hash (so ++ so') key
  = set_contains py_eq py_hash so key || set_contains py_eq py_hash so' key.
Proof. unfold set_contains. apply existsb_app. Qed.

Lemma set_contains_add so key key' :
  set_contains py_eq py_hash so key = true →
  set_contains py_eq py_hash (set_add py_eq py_hash so key') key = true.
Proof.
  intros Hc. unfold set_add. destruct (set_contains _ _ so key'); [done|].
  by rewrite set_contains_app, Hc.
Qed.

Lemma set_contains_elem so key :
  set_contains py_eq py_hash so key = true → ∃ entry, entry ∈ so ∧ py_eq entry key = true.
Proof.
  unfold set_contains. intros (entry & Hin & Hm)%existsb_exists.
  apply andb_true_iff in Hm as [_ Hm]. exists entry. by rewrite list_elem_of_In.
Qed.

Lemma set_contains_refl so key :
  py_eq key key = true → key ∈ so → set_contains py_eq py_hash so key = true.
Proof.
  intros Hr Hin. apply existsb_exists. exists key. split; [by apply list_elem_of_In|].
  by rewrite bool_decide_eq_true_2, Hr.
Qed.

Lemma set_add_length so key :
  (length so ≤ length (set_add py_eq py_hash so key) ≤ S (length so))%nat.
Proof.
  unfold set_add. destruct (set_contains _ _ so key); [lia|].
  rewrite length_app. simpl. lia.
Qed.

Lemma set_add_wf so key : set_wf so → set_wf (set_add py_eq py_hash so key).
Proof.
  intros Hwf. unfold set_add. destruct (set_contains _ _ so key) eqn:E; [done|].
  by constructor.
Qed.

Lemma set_add_elem so key x :
  x ∈ set_add py_eq py_hash so key → x ∈ so ∨ x = key.
Proof.
  unfold set_add. destruct (set_contains _ _ so key); [by left|].
  rewrite elem_of_app, list_elem_of_singleton. tauto.
Qed.

Lemma foldl_set_add_wf so items :
  set_wf so → set_wf (foldl (set_add py_eq py_hash) so items).
Proof.
  revert so. induction items as [|x items IH]; intros so Hwf; [done|].
  simpl. by apply IH, set_add_wf.
Qed.

Lemma foldl_set_add_elem so items x :
  x ∈ foldl (set_add py_eq py_hash) so items → x ∈ so ∨ x ∈ items.
Proof.
  revert so. induction items as [|y items IH]; intros so Hx; [by left|].
  simpl in Hx. apply IH in Hx as [Hx|Hx].
  - apply set_add_elem in Hx as [Hx| ->]; [by left|]. right. apply list_elem_of_here.
  - right. by apply list_elem_of_further.
Qed.

Lemma set_of_wf items : set_wf (set_of py_eq py_hash items).
Proof. apply foldl_set_add_wf. constructor. Qed.

Lemma set_of_elem items x : x ∈ set_of py_eq py_hash items → x ∈ items.
Proof.
  intros [Hx|Hx]%foldl_set_add_elem; [|done]. by apply not_elem_of_nil in Hx.
Qed.

(** walking [other] and keeping what [so] holds never yields more entries
    than were walked *)
Lemma walk_length (so result other : list A) :
  (length (foldl (λ result entry,
                    if set_contains py_eq py_hash so entry
                    then set_add py_eq py_hash result entry else result)
                 result other)
   ≤ length result + length other)%nat.
Proof.
  revert result. induction other as [|x other IH]; intros result; simpl; [lia|].
  etrans; [apply IH|]. destruct (set_contains _ _ so x); [|lia].
  pose proof (set_add_length result x). lia.
Qed.

(** walking a well-formed set whose entries are all found gives it back *)
Lemma walk_all (so other : list A) :
  set_wf other →
  (∀ x, x ∈ other → set_contains py_eq py_hash so x = true) →
  foldl (λ result entry,
           if set_contains py_eq py_hash so entry
           then set_add py_eq py_hash result entry else result)
        [] other = other.
Proof.
  induction 1 as [|other key Hwf IH Hfresh]; intros Hall; [done|].
  rewrite foldl_app. simpl. rewrite IH.
  - rewrite Hall; [|apply elem_of_app; right; apply list_elem_of_here].
    unfold set_add. by rewrite Hfresh.
  - intros x Hx. apply Hall, elem_of_app. by left.
Qed.

Lemma set_intersection_length so other :
  (set_len (set_intersection py_eq py_hash so other)
   ≤ Z.min (set_len so) (set_len other))%Z.
Proof.
  unfold set_intersection, set_len.
  destruct (Z.ltb_spec (Z.of_nat (length so)) (Z.of_nat (length other))).
  - pose proof (walk_length other [] so). simpl in *. lia.
  - pose proof (walk_length so [] other). simpl in *. lia.
Qed.


Lemma set_intersection_self so :
  set_wf so → (∀ x, x ∈ so → py_eq x x = true) →
  set_intersection py_eq py_hash so so = so.
Proof.
  intros Hwf Hrefl. unfold set_intersection. rewrite Z.ltb_irrefl.
  apply walk_all; [done|]. intros x Hx. apply set_contains_refl; auto.
Qed.

Lemma add_bounded (s : Scores) reference_set predicted_set :
  bounded s → bounded (add py_eq py_hash s reference_set predicted_set).1.
Proof.
  unfold bounded, add. simpl.
  pose proof (set_intersection_length reference_set predicted_set). lia.
Qed.

Lemma add_init_self so :
  set_wf so → (∀ x, x ∈ so → py_eq x x = true) →
  (add py_eq py_hash Scores_init so so).1
  = mkScores (set_len so) (set_len so) (set_len so).
Proof. intros Hwf Hrefl. unfold add. simpl. by rewrite set_intersection_self. Qed.

(** an item handed to [add] is in the set afterwards, or an entry of the
    set matches it *)
Lemma foldl_set_add_covers (so items : list A) (x : A) :
  x ∈ so ∨ set_contains py_eq py_hash so x = true ∨ x ∈ items →
  x ∈ foldl (set_add py_eq py_hash) so items
  ∨ set_contains py_eq py_hash (foldl (set_add py_eq py_hash) so items) x = true.
Proof.
  revert so. induction items as [|y items IH]; intros so Hx; simpl.
  - destruct Hx as [?|[?|Hn]]; [by left|by right|]. by apply not_elem_of_nil in Hn.
  - apply IH. destruct Hx as [Hx|[Hx|Hx]].
    + left. unfold set_add. destruct (set_contains _ _ so y); [done|].
      apply elem_of_app. by left.
    + right. left. by apply set_contains_add.
    + apply elem_of_cons in Hx as [->|Hx]; [|by right; right].
      unfold set_add. destruct (set_contains _ _ so y) eqn:E; [by right; left|].
      left. apply elem_of_app. right. apply list_elem_of_here.
Qed.

Lemma set_of_covers (items : list A) (x : A) :
  x ∈ items →
  x ∈ set_of py_eq py_hash items
  ∨ set_contains py_eq py_hash (set_of py_eq py_hash items) x = true.
Proof. intros Hx. apply foldl_set_add_covers. by right; right. Qed.

Lemma set_of_nil_iff (items : list A) : set_of py_eq py_hash items = [] ↔ items = [].
Proof.
  split; [|by intros ->]. destruct items as [|x items]; [done|]. intros Hn.
  destruct (set_of_covers (x :: items) x) as [Hx|Hx]; [apply list_elem_of_here| |];
    rewrite Hn in Hx; [by apply not_elem_of_nil in Hx|done].
Qed.

End PySetFacts.

(** ** What a set holds, whatever the equality *)

Section SetsOnce.
Context {A : Type} (py_eq : A → A → bool) (py_hash : A → HashCode).











(** a test that equal items agree on commutes with filling a set *)
Section Filter.
Context (P : A → Prop) `{∀ x, Decision (P x)}.
Context (P_eq : ∀ x y, py_eq x y = true → P x ↔ P y).



End Filter.
End SetsOnce.

Lemma update_bounded (s s' : Scores) : bounded s → bounded s' → bounded (update s s').
Proof. unfold bounded, update. simpl. lia. Qed.

(** ** [_group_by] *)

Section GroupByFacts.
Context {A : Type} (py_eq : A → A → bool) (py_hash : A → HashCode).
Context `{Countable K} (key_function : A → K).

Lemma group_add_lookup (index : nat) (m : gmap K (list A * list A)) (x : A) (k : K) :
  group_add py_eq py_hash key_function index m x !! k
  = if decide (key_function x = k)
    then
      let rp := default ([], []) (m !! k) in
      Some match index with
           | O => (set_add py_eq py_hash rp.1 x, rp.2)
           | _ => (rp.1, set_add py_eq py_hash rp.2 x)
           end
    else m !! k.
Proof.
  unfold group_add.
  destruct (default ([], []) (m !! key_function x)) as [r p] eqn:E.
  destruct (decide (key_function x = k)) as [<-|Hne].
  - by rewrite lookup_insert_eq, E.
  - by rewrite lookup_insert_ne.
Qed.

Lemma foldl_group_add_lookup (index : nat) (m : gmap K (list A * list A))
    (items : list A) (k : K) :
  foldl (group_add py_eq py_hash key_function index) m items !! k
  = if decide (filter (λ x, key_function x = k) items = []) then m !! k
    else
      let rp := default ([], []) (m !! k) in
      let found := filter (λ x, key_function x = k) items in
      Some match index with
           | O => (foldl (set_add py_eq py_hash) rp.1 found, rp.2)
           | _ => (rp.1, foldl (set_add py_eq py_hash) rp.2 found)
           end.
Proof.
  revert m. induction items as [|x items IH]; intros m; [done|].
  simpl. rewrite IH. clear IH. rewrite filter_cons, !group_add_lookup. cbn beta.
  destruct (decide (key_function x = k)) as [Heq|Hne]; [|done].
  rewrite (decide_False (P := _ :: _ = [])) by done. simpl.
  destruct (decide (filter _ items = [])) as [->|]; by destruct index.
Qed.

Lemma group_by_lookup (reference_iterable predicted_iterable : list A) (k : K) :
  _group_by py_eq py_hash key_function reference_iterable predicted_iterable !! k
  = if decide (filter (λ x, key_function x = k) reference_iterable = []
               ∧ filter (λ x, key_function x = k) predicted_iterable = [])
    then None
    else Some (set_of py_eq py_hash (filter (λ x, key_function x = k) reference_iterable),
               set_of py_eq py_hash (filter (λ x, key_function x = k) predicted_iterable)).
Proof.
  unfold _group_by. simpl. rewrite !foldl_group_add_lookup, lookup_empty. simpl.
  unfold set_of.
  destruct (decide (filter _ reference_iterable = [])) as [Er|Er];
    destruct (decide (filter _ predicted_iterable = [])) as [Ep|Ep];
    destruct (decide (_ ∧ _)) as [[Er' Ep']|Hn]; simpl; try done;
    try (exfalso; apply Hn; done).
  - by rewrite Er.
  - by rewrite Ep.
Qed.
End GroupByFacts.

(** ** [sorted] only reorders *)

Section SortedFacts.
Context {A : Type} (leb : A → A → bool).

Lemma sorted_insert_perm (x : A) (l : list A) : sorted_insert leb x l ≡ₚ x :: l.
Proof.
  induction l as [|y l IH]; simpl; [done|].
  destruct (leb x y); [done|]. rewrite IH. apply Permutation_swap.
Qed.

Lemma sorted_perm (l : list A) : sorted leb l ≡ₚ l.
Proof.
  induction l as [|x l IH]; simpl; [done|].
  by rewrite sorted_insert_perm, IH.
Qed.
End SortedFacts.

(** ** Folding steps that act key by key *)

Lemma foldl_pointwise `{Countable K} {V T : Type}
    (step : gmap K V → T → gmap K V) (F : T → K → option V → option V) :
  (∀ m t k, step m t !! k = F t k (m !! k)) →
  ∀ l m k, foldl step m l !! k = foldl (λ o t, F t k o) (m !! k) l.
Proof.
  intros Hstep l. induction l as [|t l IH]; intros m k; [done|].
  simpl. by rewrite IH, Hstep.
Qed.

Lemma foldl_selected {T O : Type} `{EqDecision T} (G : T → O → O) (sel : T)
    (l : list T) (o : O) :
  NoDup l →
  (∀ t o, t ≠ sel → G t o = o) →
  foldl (λ o t, G t o) o l = if decide (sel ∈ l) then G sel o else o.
Proof.
  intros Hnd Hother. revert o.
  induction Hnd as [|t l Hnotin Hnd IH]; intros o; simpl.
  - destruct (decide (sel ∈ [])) as [Hin|]; [|done]. by apply not_elem_of_nil in Hin.
  - rewrite IH. destruct (decide (t = sel)) as [->|Hne].
    + destruct (decide (sel ∈ l)); [done|].
      destruct (decide (sel ∈ sel :: l)) as [|Hn]; [done|].
      destruct Hn. apply list_elem_of_here.
    + rewrite (Hother t) by done.
      destruct (decide (sel ∈ l)) as [Hin|Hnin];
        destruct (decide (sel ∈ t :: l)) as [Hin'|Hnin']; try done.
      * destruct Hnin'. by apply list_elem_of_further.
      * apply elem_of_cons in Hin' as [?|?]; by subst.
Qed.

Lemma sorted_keys_NoDup `{Countable K} {V : Type} (leb : K → K → bool) (m : gmap K V) :
  NoDup (sorted leb (map fst (map_to_list m))).
Proof. rewrite sorted_perm. apply NoDup_fst_map_to_list. Qed.

Lemma sorted_keys_elem `{Countable K} {V : Type} (leb : K → K → bool) (m : gmap K V) (k : K) :
  k ∈ sorted leb (map fst (map_to_list m)) ↔ is_Some (m !! k).
Proof.
  rewrite sorted_perm, list_elem_of_fmap. split.
  - intros ([k' v] & -> & Hin). apply elem_of_map_to_list in Hin. by exists v.
  - intros [v Hv]. exists (k, v). split; [done|]. by apply elem_of_map_to_list.
Qed.

(** ** What [score_data] puts under each name *)

Section ScoreDataFacts.
Context (M : AnnotationModel) (include exclude : option (gset Key)).

Local Abbreviation fact_add' := (set_add (fact_eq M) (fact_hash M)).

Lemma result_add_lookup {A} (py_eq : A → A → bool) (py_hash : A → HashCode)
    (result : gmap Key Scores) (name k : Key) (r p : list A) :
  result_add py_eq py_hash result name r p !! k
  = if decide (k = name)
    then Some (add py_eq py_hash (default Scores_init (result !! k)) r p).1
    else result !! k.
Proof.
  unfold result_add. destruct (decide (k = name)) as [->|Hne].
  - by rewrite lookup_insert_eq.
  - by rewrite lookup_insert_ne.
Qed.

Lemma score_type_lookup (groups : gmap string (list (Ann M) * list (Ann M)))
    (result : gmap Key Scores) (t : string) (k : Key) :
  score_type M include exclude groups result t !! k
  = type_scores M include exclude groups t k (result !! k).
Proof.
  unfold score_type, type_scores, prop_groups_of.
  destruct (default ([], []) (groups !! t)) as [R P]. cbn [fst snd].
  set (pg := _group_by _ _ _ _ _).
  set (result1 := if _accept M include exclude t None None then _ else result).
  assert (result1 !! k
          = if decide (k = KType t)
            then if _accept M include exclude t None None
                 then Some (add (ann_eq M) (ann_hash M)
                              (default Scores_init (result !! k)) R P).1
                 else result !! k
            else result !! k) as <-.
  { unfold result1. destruct (_accept M include exclude t None None).
    - apply result_add_lookup.
    - by destruct (decide (k = KType t)). }
  generalize result1. clear result1. intros result1.
  rewrite (foldl_pointwise _
    (λ name k o,
       if decide (k = name)
       then Some (add (fact_eq M) (fact_hash M) (default Scores_init o)
                    (default ([], []) (pg !! name)).1
                    (default ([], []) (pg !! name)).2).1
       else o)).
  2:{ intros m name k'. destruct (default ([], []) (pg !! name)) as [rt pt].
      apply result_add_lookup. }
  rewrite (foldl_selected
             (λ name o,
                if decide (k = name)
                then Some (add (fact_eq M) (fact_hash M) (default Scores_init o)
                             (default ([], []) (pg !! name)).1
                             (default ([], []) (pg !! name)).2).1
                else o) k).
  - destruct (decide (k ∈ _)) as [Hin|Hnin].
    + apply sorted_keys_elem in Hin as [[rt pt] Hl]. rewrite Hl. cbn [default fst snd].
      by rewrite decide_True.
    + destruct (pg !! k) as [[rt pt]|] eqn:Hl; [|done].
      destruct Hnin. apply sorted_keys_elem. by rewrite Hl.
  - apply sorted_keys_NoDup.
  - intros name o Hne. by rewrite decide_False.
Qed.

Lemma filter_none {A} (P : A → Prop) `{∀ x, Decision (P x)} (l : list A) :
  (∀ x, x ∈ l → ¬ P x) → filter P l = [].
Proof.
  induction l as [|x l IH]; intros Hn; [done|].
  rewrite filter_cons_False; [|apply Hn, list_elem_of_here].
  apply IH. intros y Hy. by apply Hn, list_elem_of_further.
Qed.

Lemma _props_property_candidates (ann : Ann M) (props : list (Fact M))
    (item : string * Value M) :
  _props_property M include exclude ann props item
  = foldl fact_add' props (property_candidates M include exclude ann item).
Proof.
  destruct item as [prop_name prop_value].
  unfold _props_property, property_candidates, fact_add. rewrite foldl_app. simpl.
  destruct (_accept M include exclude (ann_type M ann) (Some prop_name) None);
    destruct (value_basestring M prop_value); try done;
    by destruct (_accept M include exclude _ _ (Some prop_value)).
Qed.

Lemma _props_annotation_candidates (props : list (Fact M)) (ann : Ann M) :
  _props_annotation M include exclude props ann
  = foldl fact_add' props (fact_candidates M include exclude ann).
Proof.
  unfold _props_annotation, fact_candidates, fact_add. rewrite foldl_app.
  set (props1 := if _accept M include exclude _ _ None then _ else props).
  assert (foldl fact_add' props
            (if _accept M include exclude (ann_type M ann) (Some "<span>") None
             then [mkFact M (ann_spans M ann) (KProp (ann_type M ann) "<span>") None]
             else []) = props1) as ->.
  { unfold props1. by destruct (_accept M include exclude _ _ None). }
  generalize props1. clear props1.
  induction (ann_properties M ann) as [|item items IH]; intros props1; [done|].
  simpl. rewrite foldl_app, <- _props_property_candidates. apply IH.
Qed.

Lemma _props_candidates (annotations : list (Ann M)) :
  _props M include exclude annotations
  = set_of (fact_eq M) (fact_hash M) (annotations ≫= fact_candidates M include exclude).
Proof.
  unfold _props, set_of. generalize (@nil (Fact M)).
  induction annotations as [|ann annotations IH]; intros props; [done|].
  simpl. by rewrite foldl_app, <- _props_annotation_candidates, IH.
Qed.

Lemma fact_candidates_key (ann : Ann M) (f : Fact M) :
  f ∈ fact_candidates M include exclude ann →
  key_type (fact_key M f) = ann_type M ann ∧ ∀ t, fact_key M f ≠ KType t.
Proof.
  unfold fact_candidates. rewrite elem_of_app. intros [Hf|Hf].
  - destruct (_accept M include exclude _ _ None); [|by apply not_elem_of_nil in Hf].
    by apply list_elem_of_singleton in Hf as ->.
  - apply list_elem_of_bind in Hf as (item & Hf & _).
    unfold property_candidates in Hf. apply elem_of_app in Hf as [Hf|Hf].
    + destruct (_accept M include exclude _ _ None); [|by apply not_elem_of_nil in Hf].
      by apply list_elem_of_singleton in Hf as ->.
    + destruct (value_basestring M item.2); [|by apply not_elem_of_nil in Hf].
      destruct (_accept M include exclude _ _ (Some _)); [|by apply not_elem_of_nil in Hf].
      by apply list_elem_of_singleton in Hf as ->.
Qed.

Lemma _props_key (annotations : list (Ann M)) (t : string) (f : Fact M) :
  (∀ a, a ∈ annotations → ann_type M a = t) →
  f ∈ _props M include exclude annotations →
  key_type (fact_key M f) = t ∧ ∀ t', fact_key M f ≠ KType t'.
Proof.
  intros Ht. rewrite _props_candidates. intros Hf%set_of_elem.
  apply list_elem_of_bind in Hf as (a & Hf & Ha).
  apply fact_candidates_key in Hf as [Hk Hn]. by rewrite Hk, (Ht a Ha).
Qed.

(** the facts of annotations of type [t] are filed under names of type [t],
    and never under a bare type name *)
Lemma prop_groups_of_None (R P : list (Ann M)) (t : string) (k : Key) :
  (∀ a, a ∈ R → ann_type M a = t) →
  (∀ a, a ∈ P → ann_type M a = t) →
  key_type k ≠ t ∨ k = KType (key_type k) →
  prop_groups_of M include exclude R P !! k = None.
Proof.
  intros HR HP Hk. unfold prop_groups_of. rewrite group_by_lookup.
  rewrite decide_True; [done|].
  split; apply filter_none; intros f Hf Hkey.
  - apply (_props_key _ t) in Hf as [Hf Hn]; [|done].
    destruct Hk as [Hk|Hk]; [by rewrite <- Hkey in Hk|].
    apply (Hn (key_type k)). by rewrite Hkey.
  - apply (_props_key _ t) in Hf as [Hf Hn]; [|done].
    destruct Hk as [Hk|Hk]; [by rewrite <- Hkey in Hk|].
    apply (Hn (key_type k)). by rewrite Hkey.
Qed.

Lemma groups_members (reference_annotations predicted_annotations : list (Ann M))
    (t : string) :
  let rp := default ([], [])
              (_group_by (ann_eq M) (ann_hash M) (ann_type M)
                 reference_annotations predicted_annotations !! t) in
  (∀ a, a ∈ rp.1 → ann_type M a = t) ∧ (∀ a, a ∈ rp.2 → ann_type M a = t).
Proof.
  rewrite group_by_lookup. destruct (decide _) as [_|_]; simpl.
  - split; intros a Ha; by apply not_elem_of_nil in Ha.
  - split; intros a Ha; apply set_of_elem in Ha;
      by apply list_elem_of_filter in Ha as [? _].
Qed.

Lemma type_scores_other (reference_annotations predicted_annotations : list (Ann M))
    (t : string) (k : Key) (o : option Scores) :
  t ≠ key_type k →
  type_scores M include exclude
    (_group_by (ann_eq M) (ann_hash M) (ann_type M)
       reference_annotations predicted_annotations) t k o = o.
Proof.
  intros Hne. unfold type_scores.
  pose proof (groups_members reference_annotations predicted_annotations t) as [HR HP].
  cbv zeta in HR, HP.
  rewrite (prop_groups_of_None _ _ t); [|done|done|by left].
  rewrite decide_False; [done|]. intros ->. by destruct Hne.
Qed.

(** Every name is written by one [add] on a fresh [Scores]: a type name by
    the two sets of annotations of that type, the name of a fact by the two
    sets of facts filed under it. *)
Lemma score_annotations_lookup (reference_annotations predicted_annotations : list (Ann M))
    (k : Key) :
  score_annotations M include exclude reference_annotations predicted_annotations !! k
  = match _group_by (ann_eq M) (ann_hash M) (ann_type M)
            reference_annotations predicted_annotations !! key_type k with
    | Some (R, P) =>
        if decide (k = KType (key_type k))
        then if _accept M include exclude (key_type k) None None
             then Some (add (ann_eq M) (ann_hash M) Scores_init R P).1
             else None
        else match prop_groups_of M include exclude R P !! k with
             | Some (rt, pt) => Some (add (fact_eq M) (fact_hash M) Scores_init rt pt).1
             | None => None
             end
    | None => None
    end.
Proof.
  unfold score_annotations.
  set (groups := _group_by _ _ _ _ _).
  rewrite (foldl_pointwise _ (type_scores M include exclude groups))
    by (intros; apply score_type_lookup).
  rewrite (foldl_selected (λ t o, type_scores M include exclude groups t k o) (key_type k));
    [|apply sorted_keys_NoDup|by intros; apply type_scores_other].
  rewrite lookup_empty.
  destruct (decide (key_type k ∈ _)) as [Hin|Hnin].
  - apply sorted_keys_elem in Hin as [[R P] Hl].
    pose proof (groups_members reference_annotations predicted_annotations (key_type k))
      as [HR HP].
    fold groups in HR, HP. rewrite Hl in HR, HP. unfold default, id in HR, HP.
    cbn [from_option fst snd] in HR, HP.
    unfold type_scores. rewrite Hl. unfold default, id. cbn [from_option fst snd].
    destruct (decide (k = KType (key_type k))) as [Hk|Hk].
    + rewrite (prop_groups_of_None _ _ (key_type k)); [|done|done|by right].
      done.
    + by destruct (prop_groups_of M include exclude R P !! k) as [[rt pt]|].
  - destruct (groups !! key_type k) as [[R P]|] eqn:Hl; [|done].
    destruct Hnin. apply sorted_keys_elem. by rewrite Hl.
Qed.
End ScoreDataFacts.

(** ** Invariants of the returned mapping *)

Section ScoreDataInvariants.
Context (M : AnnotationModel) (include exclude : option (gset Key)).

Lemma Scores_init_bounded : bounded Scores_init.
Proof. unfold bounded. simpl. lia. Qed.

(** whatever the equalities of the model are, no entry counts more correct
    items than reference items or predicted items *)
Lemma score_annotations_bounded (reference_annotations predicted_annotations : list (Ann M))
    (k : Key) (s : Scores) :
  score_annotations M include exclude reference_annotations predicted_annotations !! k
  = Some s →
  bounded s.
Proof.
  rewrite score_annotations_lookup.
  destruct (_ !! key_type k) as [[R P]|]; [|done].
  destruct (decide _).
  - destruct (_accept _ _ _ _ _ _); [|done].
    intros Hs; apply (inj Some) in Hs; subst s. apply add_bounded, Scores_init_bounded.
  - destruct (_ !! k) as [[rt pt]|]; [|done].
    intros Hs; apply (inj Some) in Hs; subst s. apply add_bounded, Scores_init_bounded.
Qed.


(** a document scored against itself, when [==] holds between an object
    and itself *)
Lemma score_annotations_self (annotations : list (Ann M)) (k : Key) (s : Scores) :
  (∀ a, ann_eq M a a = true) →
  (∀ f, fact_eq M f f = true) →
  score_annotations M include exclude annotations annotations !! k = Some s →
  correct s = reference s ∧ reference s = predicted s.
Proof.
  intros Hann Hfact. rewrite score_annotations_lookup.
  destruct (_ !! key_type k) as [[R P]|] eqn:Hg; [|done].
  rewrite group_by_lookup in Hg. destruct (decide _); [done|].
  injection Hg as <- <-.
  destruct (decide _).
  - destruct (_accept _ _ _ _ _ _); [|done].
    intros Hs; apply (inj Some) in Hs; subst s. by rewrite add_init_self by (auto using set_of_wf).
  - destruct (_ !! k) as [[rt pt]|] eqn:Hp; [|done].
    unfold prop_groups_of in Hp. rewrite group_by_lookup in Hp.
    destruct (decide _); [done|]. injection Hp as <- <-.
    intros Hs; apply (inj Some) in Hs; subst s. by rewrite add_init_self by (auto using set_of_wf).
Qed.
End ScoreDataInvariants.

Lemma Exact_ann_eq_refl (a : Ann Exact) : ann_eq Exact a a = true.
Proof. by apply bool_decide_eq_true_2. Qed.

Lemma Exact_fact_eq_refl (f : Fact Exact) : fact_eq Exact f f = true.
Proof.
  unfold fact_eq. simpl. rewrite !bool_decide_eq_true_2 by done.
  destruct (fact_value Exact f); [|done]. by rewrite bool_decide_eq_true_2.
Qed.

(** C3: under the default equality, every name in [score_data(D, D)] has
    [correct == reference == predicted]. *)
Theorem score_data_self (include exclude : option (gset Key)) (D : list Annotation) :
  ∃ r, score_data Exact include exclude (Some D) (Some D) = inr r
       ∧ ∀ k s, r !! k = Some s → correct s = reference s ∧ reference s = predicted s.
Proof.
  eexists. split; [reflexivity|]. intros k s.
  apply score_annotations_self; auto using Exact_ann_eq_refl, Exact_fact_eq_refl.
Qed.



(** ** The bound on [correct] under the overlapping wrapper *)

Lemma score_data_overlapping_bounded (heap : gmap objid AnnObj)
    (include exclude : option (gset Key)) (reference_data predicted_data : option (list objid))
    (r : gmap Key Scores) (k : Key) (s : Scores) :
  score_data_overlapping heap include exclude reference_data predicted_data = Some (inr r) →
  r !! k = Some s →
  bounded s.
Proof.
  unfold score_data_overlapping. intros Hr Hs.
  destruct reference_data as [reference_annotations|]; [|done].
  destruct (mapM _ reference_annotations) as [R|]; [|done].
  destruct (mapM _ (default [] predicted_data)) as [P|]; [|done].
  simpl in Hr. injection Hr as <-.
  by apply score_annotations_bounded in Hs.
Qed.

(** C6 (as the code has it): also under the overlapping wrapper every
    [Scores] that [score_data] returns has [correct <= min(reference,
    predicted)]; [add] keeps the bound for any two sets of wrappers, since
    the intersection is drawn from the smaller one, and [update] keeps it. *)
Theorem overlapping_scores_bounded :
  (∀ heap include exclude reference_data predicted_data r k s,
     score_data_overlapping heap include exclude reference_data predicted_data
     = Some (inr r) →
     r !! k = Some s → bounded s)
  ∧ (∀ (s : Scores) (reference_set predicted_set : list Wrapper),
       bounded s →
       bounded (add Wrapper_eq Wrapper_hash s reference_set predicted_set).1)
  ∧ (∀ s s', bounded s → bounded s' → bounded (update s s')).
Proof.
  split; [|split].
  - apply score_data_overlapping_bounded.
  - intros. by apply add_bounded.
  - apply update_bounded.
Qed.

Lemma overlapping_scores_bounded_witness : bounded (mkScores 2 1 1).
Proof.
  apply (proj1 overlapping_scores_bounded heap_chain None None
           (Some [1; 2]%positive) (Some [3%positive]) chain_scores (KType "Event")).
  - unfold chain_scores.
    assert (match score_data_overlapping heap_chain None None
                    (Some [1; 2]%positive) (Some [3%positive]) with
            | Some (inr _) => true
            | _ => false
            end = true) as Hr by (vm_compute; reflexivity).
    destruct (score_data_overlapping heap_chain None None _ _) as [[e|r]|];
      [discriminate Hr|reflexivity|discriminate Hr].
  - vm_compute. reflexivity.
Defined.

(** C6, as stated: no two annotation collections make [correct] exceed
    [min(reference, predicted)]. *)
Lemma overlapping_correct_never_exceeds :
  ¬ ∃ heap include exclude reference_data predicted_data r k s,
      score_data_overlapping heap include exclude reference_data predicted_data
      = Some (inr r)
      ∧ r !! k = Some s
      ∧ (Z.min (reference s) (predicted s) < correct s)%Z.
Proof.
  intros (heap & include & exclude & reference_data & predicted_data & r & k & s
          & Hr & Hs & Hlt).
  pose proof (score_data_overlapping_bounded _ _ _ _ _ _ _ _ Hr Hs) as Hb.
  unfold bounded in Hb. lia.
Qed.

(** ** Sets of objects whose [==] is equality

    When [py_eq] decides equality, the hash plays no part: a set holds each
    of the items added to it once. *)

Section LeibnizSets.
Context {A : Type} `{EqDecision A} (py_eq : A → A → bool) (py_hash : A → HashCode).
Context (py_eq_spec : ∀ x y, py_eq x y = true ↔ x = y).

Lemma set_contains_elem_of (so : list A) (key : A) :
  set_contains py_eq py_hash so key = true ↔ key ∈ so.
Proof.
  split.
  - intros (entry & Hin & Heq)%set_contains_elem. by apply py_eq_spec in Heq as <-.
  - intros Hin. apply set_contains_refl; [by apply py_eq_spec|done].
Qed.

Lemma set_wf_NoDup (so : list A) : set_wf py_eq py_hash so → NoDup so.
Proof.
  induction 1 as [|so key Hwf IH Hfresh]; [constructor|].
  apply NoDup_app. split; [done|]. split; [|apply NoDup_singleton].
  intros x Hx ->%list_elem_of_singleton.
  apply set_contains_elem_of in Hx. congruence.
Qed.

Lemma elem_of_set_add (so : list A) (key x : A) :
  x ∈ set_add py_eq py_hash so key ↔ x ∈ so ∨ x = key.
Proof.
  unfold set_add. destruct (set_contains _ _ so key) eqn:E.
  - apply set_contains_elem_of in E. split; [by left|]. by intros [?| ->].
  - rewrite elem_of_app, list_elem_of_singleton. tauto.
Qed.

Lemma elem_of_foldl_set_add (so items : list A) (x : A) :
  x ∈ foldl (set_add py_eq py_hash) so items ↔ x ∈ so ∨ x ∈ items.
Proof.
  revert so. induction items as [|y items IH]; intros so; simpl.
  - split; [by left|]. intros [?|Hn]; [done|]. by apply not_elem_of_nil in Hn.
  - rewrite IH, elem_of_set_add, elem_of_cons. tauto.
Qed.

Lemma elem_of_set_of (items : list A) (x : A) :
  x ∈ set_of py_eq py_hash items ↔ x ∈ items.
Proof.
  unfold set_of. rewrite elem_of_foldl_set_add. split; [|by right].
  intros [Hn|?]; [|done]. by apply not_elem_of_nil in Hn.
Qed.

Lemma same_elements_length (l1 l2 : list A) :
  NoDup l1 → NoDup l2 → (∀ x, x ∈ l1 ↔ x ∈ l2) → length l1 = length l2.
Proof. intros H1 H2 Hiff. by apply Permutation_length, NoDup_Permutation. Qed.


Lemma walk_wf (so result other : list A) :
  set_wf py_eq py_hash result →
  set_wf py_eq py_hash
    (foldl (λ result entry,
              if set_contains py_eq py_hash so entry
              then set_add py_eq py_hash result entry else result)
           result other).
Proof.
  revert result. induction other as [|x other IH]; intros result Hwf; [done|].
  simpl. apply IH. destruct (set_contains _ _ so x); [by apply set_add_wf|done].
Qed.

Lemma walk_elem (so result other : list A) (x : A) :
  x ∈ foldl (λ result entry,
               if set_contains py_eq py_hash so entry
               then set_add py_eq py_hash result entry else result)
            result other
  ↔ x ∈ result ∨ (x ∈ other ∧ x ∈ so).
Proof.
  revert result. induction other as [|y other IH]; intros result; simpl.
  - split; [by left|]. intros [?|[Hn _]]; [done|]. by apply not_elem_of_nil in Hn.
  - rewrite IH, elem_of_cons. destruct (set_contains _ _ so y) eqn:E.
    + apply set_contains_elem_of in E. rewrite elem_of_set_add.
      split; [|intros [?|[[->|?] ?]]; tauto].
      intros [[?| ->]|[? ?]]; tauto.
    + assert (y ∉ so) as Hn.
      { intros Hin%set_contains_elem_of. congruence. }
      split; [tauto|]. intros [?|[[->|?] ?]]; tauto.
Qed.

Lemma set_intersection_wf (so other : list A) :
  set_wf py_eq py_hash (set_intersection py_eq py_hash so other).
Proof.
  unfold set_intersection. destruct (_ <? _)%Z; apply walk_wf; constructor.
Qed.

Lemma elem_of_set_intersection (so other : list A) (x : A) :
  x ∈ set_intersection py_eq py_hash so other ↔ x ∈ so ∧ x ∈ other.
Proof.
  unfold set_intersection. destruct (_ <? _)%Z; rewrite walk_elem.
  - split; [intros [Hn|?]; [by apply not_elem_of_nil in Hn|tauto]|tauto].
  - split; [intros [Hn|?]; [by apply not_elem_of_nil in Hn|tauto]|tauto].
Qed.

End LeibnizSets.

(** ** The entry of every name, whatever the equality

    Each name is written once; what is written are the sizes of the two
    sets filled from its items and of their intersection. *)

Section ScoreDataEntries.
Context (M : AnnotationModel) (include exclude : option (gset Key)).




End ScoreDataEntries.

(** ** Counting under the default equality *)

Lemma Exact_ann_eq_spec (a b : Ann Exact) : ann_eq Exact a b = true ↔ a = b.
Proof. apply bool_decide_eq_true. Qed.

Lemma Exact_fact_eq_spec (f g : Fact Exact) : fact_eq Exact f g = true ↔ f = g.
Proof.
  destruct f as [s k v], g as [s' k' v']. unfold fact_eq. simpl.
  rewrite !andb_true_iff, !bool_decide_eq_true. split.
  - intros [[-> ->] Hv]. destruct v, v'; try done.
    by apply bool_decide_eq_true in Hv as ->.
  - intros [= -> -> ->]. repeat split. destruct v'; [|done].
    by apply bool_decide_eq_true.
Qed.


Section ExactEntry.
Context {A : Type} `{EqDecision A}.



Context (py_eq : A → A → bool) (py_hash : A → HashCode).
Context (py_eq_spec : ∀ x y, py_eq x y = true ↔ x = y).

End ExactEntry.

Section ExactEntries.
Context (include exclude : option (gset Key)).



End ExactEntries.



(** ** The overlapping wrapper on cyclic property graphs *)

Section Wrap.
Context (heap : gmap objid AnnObj).

Lemma unseen_shrinks (seen : gset objid) (id : objid) :
  id ∈ dom heap → id ∉ seen →
  (size (dom heap ∖ ({[id]} ∪ seen)) < size (dom heap ∖ seen))%nat.
Proof.
  intros Hd Hs. apply subset_size. split.
  - intros x [Hx Hn]%elem_of_difference. apply elem_of_difference. split; [done|].
    intros Hin. apply Hn, elem_of_union. by right.
  - intros Hsub. specialize (Hsub id). rewrite !elem_of_difference in Hsub.
    destruct Hsub as [_ Hn]; [done|]. apply Hn, elem_of_union. left.
    by apply elem_of_singleton.
Qed.

Lemma seen_grows (seen seen' : gset objid) :
  seen ⊆ seen' → (size (dom heap ∖ seen') ≤ size (dom heap ∖ seen))%nat.
Proof.
  intros Hsub. apply subseteq_size.
  intros x [Hx Hn]%elem_of_difference. apply elem_of_difference. split; [done|].
  intros Hin. by apply Hn, Hsub.
Qed.

Lemma as_annotation_dom (value : PyValue) (obj : AnnObj) :
  as_annotation heap value = Some obj → value_id value ∈ dom heap.
Proof.
  destruct value as [id s|id z|id]; simpl; try done.
  intros Hl. apply elem_of_dom. by exists obj.
Qed.

(** the loop ends when the nested calls do *)
Lemma wrap_properties_total
    (wrap_value : objid → AnnObj → gset objid → option (Wrapper * gset objid)) (n : nat) :
  (∀ id obj seen, (size (dom heap ∖ seen) < n)%nat →
     ∃ w seen', wrap_value id obj seen = Some (w, seen') ∧ seen ⊆ seen') →
  ∀ items properties seen, (size (dom heap ∖ seen) ≤ n)%nat →
    ∃ properties' seen',
      wrap_properties heap wrap_value items properties seen = Some (properties', seen')
      ∧ seen ⊆ seen'.
Proof.
  intros Hw items. induction items as [|[name value] items IH];
    intros properties seen Hn; simpl.
  - by exists properties, seen.
  - destruct (decide (value_id value ∈ seen)) as [Hin|Hnin]; [by apply IH|].
    pose proof (seen_grows seen ({[value_id value]} ∪ seen)) as Hle.
    destruct (as_annotation heap value) as [obj|] eqn:Ha.
    + pose proof (unseen_shrinks seen _ (as_annotation_dom _ _ Ha) Hnin) as Hlt.
      destruct (Hw (value_id value) obj ({[value_id value]} ∪ seen))
        as (w & seen1 & -> & Hsub1); [lia|].
      simpl. pose proof (seen_grows _ _ Hsub1).
      destruct (IH (<[name := WWrapped w]> properties) seen1)
        as (properties' & seen' & -> & Hsub'); [lia|].
      exists properties', seen'. split; [done|]. set_solver.
    + destruct (IH (<[name := WRaw value]> properties) ({[value_id value]} ∪ seen))
        as (properties' & seen' & -> & Hsub'); [set_solver by lia|].
      exists properties', seen'. split; [done|]. set_solver.
Qed.

(** [_OverlappingWrapper.__init__] returns once the fuel exceeds the number
    of objects not yet seen *)
Lemma wrap_total (fuel : nat) (annotation : objid) (obj : AnnObj) (seen : gset objid) :
  (size (dom heap ∖ seen) < fuel)%nat →
  ∃ w seen', wrap fuel heap annotation obj seen = Some (w, seen') ∧ seen ⊆ seen'.
Proof.
  revert annotation obj seen.
  induction fuel as [|fuel IH]; intros annotation obj seen Hlt; [lia|].
  simpl.
  destruct (wrap_properties_total (wrap fuel heap) fuel IH (o_properties obj) ∅ seen)
    as (properties & seen' & -> & Hsub); [lia|].
  simpl. by eexists _, _.
Qed.

Lemma wrap_properties_seen
    (wrap_value : objid → AnnObj → gset objid → option (Wrapper * gset objid)) :
  (∀ id obj seen w seen', wrap_value id obj seen = Some (w, seen') → seen ⊆ seen') →
  ∀ items properties seen properties' seen',
    wrap_properties heap wrap_value items properties seen = Some (properties', seen') →
    seen ⊆ seen'.
Proof.
  intros Hw items. induction items as [|[name value] items IH];
    intros properties seen properties' seen'; simpl.
  - by intros [= _ ->].
  - destruct (decide (value_id value ∈ seen)); [apply IH|].
    destruct (as_annotation heap value) as [obj|].
    + destruct (wrap_value _ obj _) as [[w seen1]|] eqn:Hv; [|done]. simpl.
      intros Hl%IH. apply Hw in Hv. set_solver.
    + intros Hl%IH. set_solver.
Qed.

Lemma wrap_seen (fuel : nat) (annotation : objid) (obj : AnnObj) (seen : gset objid)
    (w : Wrapper) (seen' : gset objid) :
  wrap fuel heap annotation obj seen = Some (w, seen') → seen ⊆ seen'.
Proof.
  revert annotation obj seen w seen'.
  induction fuel as [|fuel IH]; intros annotation obj seen w seen'; [done|].
  simpl. destruct (wrap_properties _ _ _ _ _) as [[properties seen1]|] eqn:Hp; [|done].
  simpl. intros [= _ <-]. by apply (wrap_properties_seen _ (IH)) in Hp.
Qed.

(** a name all of whose values have been seen keeps the entry it had *)
Lemma wrap_properties_passed_over
    (wrap_value : objid → AnnObj → gset objid → option (Wrapper * gset objid))
    (name : string) :
  (∀ id obj seen w seen', wrap_value id obj seen = Some (w, seen') → seen ⊆ seen') →
  ∀ items properties seen properties' seen',
    (∀ value, (name, value) ∈ items → value_id value ∈ seen) →
    wrap_properties heap wrap_value items properties seen = Some (properties', seen') →
    properties' !! name = properties !! name.
Proof.
  intros Hw items. induction items as [|[name' value] items IH];
    intros properties seen properties' seen' Hseen; simpl.
  - by intros [= -> _].
  - assert (∀ seen1, seen ⊆ seen1 →
              ∀ value, (name, value) ∈ items → value_id value ∈ seen1) as Hrest.
    { intros seen1 Hsub v Hv. apply Hsub, Hseen. by apply list_elem_of_further. }
    destruct (decide (value_id value ∈ seen)) as [Hin|Hnin]; [by apply IH, Hrest|].
    assert (name' ≠ name) as Hne.
    { intros ->. apply Hnin, Hseen, list_elem_of_here. }
    destruct (as_annotation heap value) as [obj|].
    + destruct (wrap_value _ obj _) as [[w seen1]|] eqn:Hv; [|done]. simpl.
      intros Hl. apply IH in Hl.
      * by rewrite Hl, lookup_insert_ne.
      * apply Hrest. apply Hw in Hv. set_solver.
    + intros Hl. apply IH in Hl.
      * by rewrite Hl, lookup_insert_ne.
      * apply Hrest. set_solver.
Qed.

Lemma wrap_properties_app
    (wrap_value : objid → AnnObj → gset objid → option (Wrapper * gset objid))
    (items1 items2 : list (string * PyValue)) (properties : gmap string WValue)
    (seen : gset objid) :
  wrap_properties heap wrap_value (items1 ++ items2) properties seen
  = match wrap_properties heap wrap_value items1 properties seen with
    | Some (properties1, seen1) =>
        wrap_properties heap wrap_value items2 properties1 seen1
    | None => None
    end.
Proof.
  revert properties seen. induction items1 as [|[name value] items1 IH];
    intros properties seen; [done|].
  cbn [app wrap_properties]. destruct (decide (value_id value ∈ seen)); [apply IH|].
  destruct (as_annotation heap value) as [obj|]; [|apply IH].
  destruct (wrap_value _ obj _) as [[w seen1]|]; [|done]. apply IH.
Qed.

(** the set [seen] is one for the whole loop: what it holds at a property,
    and what the nested call of that property adds, is there at the end *)
Lemma wrap_properties_rest
    (wrap_value : objid → AnnObj → gset objid → option (Wrapper * gset objid)) :
  (∀ id obj seen w seen', wrap_value id obj seen = Some (w, seen') → seen ⊆ seen') →
  ∀ items properties seen properties' seen' i name value properties_i seen_i,
    wrap_properties heap wrap_value items properties seen = Some (properties', seen') →
    items !! i = Some (name, value) →
    wrap_properties heap wrap_value (take i items) properties seen
    = Some (properties_i, seen_i) →
    seen_i ⊆ seen'
    ∧ (value_id value ∈ seen')
    ∧ ∀ obj' w' seen1,
        value_id value ∉ seen_i →
        as_annotation heap value = Some obj' →
        wrap_value (value_id value) obj' ({[value_id value]} ∪ seen_i) = Some (w', seen1) →
        seen1 ⊆ seen'.
Proof.
  intros Hw items properties seen properties' seen' i name value properties_i seen_i
    Hp Hi Htake.
  rewrite <- (take_drop i items), wrap_properties_app, Htake in Hp.
  rewrite (drop_S _ _ _ Hi) in Hp.
  pose proof (wrap_properties_seen wrap_value Hw _ _ _ _ _ Hp) as Hsub.
  split; [done|].
  revert Hp. cbn [wrap_properties].
  destruct (decide (value_id value ∈ seen_i)) as [Hin|Hnin]; intros Hp.
  { split; [by apply Hsub|]. by intros. }
  destruct (as_annotation heap value) as [obj|].
  - destruct (wrap_value _ obj _) as [[w seen1]|] eqn:Hv; [|done].
    cbn [mbind option_bind] in Hp.
    pose proof (wrap_properties_seen wrap_value Hw _ _ _ _ _ Hp) as Hsub1.
    pose proof (Hw _ _ _ _ _ Hv) as Hsubv.
    split; [set_solver|]. intros obj' w' seen1' _ [= <-] Hv'.
    rewrite Hv in Hv'. by injection Hv' as _ <-.
  - pose proof (wrap_properties_seen wrap_value Hw _ _ _ _ _ Hp) as Hsub1.
    split; [set_solver|]. by intros.
Qed.
(** what the loop does with the property at position [i], the names of
    the properties being different: [seen_i] is the set as the loop finds
    it there *)
Lemma wrap_properties_at
    (wrap_value : objid → AnnObj → gset objid → option (Wrapper * gset objid)) :
  (∀ id obj seen w seen', wrap_value id obj seen = Some (w, seen') → seen ⊆ seen') →
  ∀ items properties seen properties' seen',
    NoDup items.*1 →
    wrap_properties heap wrap_value items properties seen = Some (properties', seen') →
    ∀ i name value, items !! i = Some (name, value) →
    ∃ properties_i seen_i,
      wrap_properties heap wrap_value (take i items) properties seen
      = Some (properties_i, seen_i)
      ∧ seen ⊆ seen_i
      ∧ (∀ j n v, (j < i)%nat → items !! j = Some (n, v) → value_id v ∈ seen_i)
      ∧ if decide (value_id value ∈ seen_i)
        then properties' !! name = properties !! name
        else match as_annotation heap value with
             | Some obj' =>
                 ∃ w' seen1,
                   wrap_value (value_id value) obj' ({[value_id value]} ∪ seen_i)
                   = Some (w', seen1)
                   ∧ properties' !! name = Some (WWrapped w')
             | None => properties' !! name = Some (WRaw value)
             end.
Proof.
  intros Hw items. induction items as [|[name0 value0] items IH];
    intros properties seen properties' seen' Hnd Hp i name value Hi; [done|].
  apply NoDup_cons in Hnd as [Hfresh Hnd]. simpl in Hfresh.
  destruct i as [|i].
  - injection Hi as -> ->. exists properties, seen. split; [done|]. split; [done|].
    split; [intros; lia|].
    assert (∀ (seen1 : gset objid) v, (name, v) ∈ items → value_id v ∈ seen1) as Hnone.
    { intros seen1 v Hv. destruct Hfresh. apply list_elem_of_fmap. by exists (name, v). }
    revert Hp. simpl. destruct (decide (value_id value ∈ seen)) as [Hin|Hnin]; intros Hp.
    + apply (wrap_properties_passed_over _ name Hw) in Hp; [done|apply Hnone].
    + destruct (as_annotation heap value) as [obj'|].
      * destruct (wrap_value _ obj' _) as [[w' seen1]|] eqn:Hv; [|done]. simpl in Hp.
        exists w', seen1. split; [done|].
        apply (wrap_properties_passed_over _ name Hw) in Hp; [|apply Hnone].
        by rewrite Hp, lookup_insert_eq.
      * apply (wrap_properties_passed_over _ name Hw) in Hp; [|apply Hnone].
        by rewrite Hp, lookup_insert_eq.
  - simpl in Hi.
    assert (name ≠ name0) as Hne.
    { intros ->. apply Hfresh, list_elem_of_fmap. exists (name0, value). split; [done|].
      by eapply list_elem_of_lookup_2. }
    assert (∀ properties1 seen1,
              seen ⊆ seen1 → value_id value0 ∈ seen1 →
              properties1 !! name = properties !! name →
              wrap_properties heap wrap_value items properties1 seen1
              = Some (properties', seen') →
              ∃ properties_i seen_i,
                wrap_properties heap wrap_value (take i items) properties1 seen1
                = Some (properties_i, seen_i)
                ∧ seen ⊆ seen_i
                ∧ (∀ j n v, (j < S i)%nat → ((name0, value0) :: items) !! j = Some (n, v) →
                     value_id v ∈ seen_i)
                ∧ if decide (value_id value ∈ seen_i)
                  then properties' !! name = properties !! name
                  else match as_annotation heap value with
                       | Some obj' =>
                           ∃ w' seen2,
                             wrap_value (value_id value) obj' ({[value_id value]} ∪ seen_i)
                             = Some (w', seen2)
                             ∧ properties' !! name = Some (WWrapped w')
                       | None => properties' !! name = Some (WRaw value)
                       end) as Hstep.
    { intros properties1 seen1 Hsub Hin0 Hsame Hp1.
      destruct (IH properties1 seen1 properties' seen' Hnd Hp1 i name value Hi)
        as (properties_i & seen_i & Htake & Hsub_i & Hearlier & Hcase).
      exists properties_i, seen_i. split; [done|]. split; [set_solver|].
      split.
      - intros [|j] n v Hj Hl.
        + injection Hl as <- <-. by apply Hsub_i.
        + simpl in Hl. apply (Hearlier j n v); [lia|done].
      - destruct (decide (value_id value ∈ seen_i)); [by rewrite <- Hsame|done]. }
    revert Hp. simpl.
    destruct (decide (value_id value0 ∈ seen)) as [Hin|Hnin]; intros Hp.
    + by apply Hstep.
    + destruct (as_annotation heap value0) as [obj0|].
      * destruct (wrap_value _ obj0 _) as [[w0 seen1]|] eqn:Hv; [|done]. simpl in Hp.
        simpl. apply Hw in Hv. apply Hstep; [set_solver|set_solver| |done].
        by rewrite lookup_insert_ne.
      * apply Hstep; [set_solver|set_solver| |done]. by rewrite lookup_insert_ne.
Qed.
End Wrap.

Lemma _OverlappingWrapper_total (heap : gmap objid AnnObj) (annotation : objid)
    (obj : AnnObj) :
  heap !! annotation = Some obj → ∃ w, _OverlappingWrapper heap annotation = Some w.
Proof.
  intros Hl.
  destruct (wrap_total heap (S (size heap)) annotation obj ∅) as (w & seen' & Hw & _).
  - rewrite <- size_dom.
    assert (size (dom heap ∖ ∅) ≤ size (dom heap))%nat.
    { apply subseteq_size. by intros x [Hx _]%elem_of_difference. }
    lia.
  - exists w. unfold _OverlappingWrapper. rewrite Hl. cbn [mbind option_bind].
    by rewrite Hw.
Qed.

(** C9 (as the code has it): the wrapper of an annotation of the heap is
    built without running out of fuel, however the properties refer to each
    other.  For the property at any position [i] of an annotation, the
    names of its properties being different as those of a mapping are, let
    [seen_i] be the set [seen] as the loop finds it there.  It holds what
    the call was given and the values of all earlier properties; all of
    it, the value of the property and what the nested call adds are in the
    set at the end, there being one set for the whole recursion.  If the
    value is in [seen_i], the property gets no entry in the wrapper's
    properties; if it is not and is an annotation, the entry is the wrapper
    that the nested call builds, with the value added to [seen_i]; if it is
    not and is no annotation, the entry is the value itself.  A name none
    of whose values is new to the call has no entry either. *)
Theorem overlapping_wrapper_seen :
  (∀ heap annotation obj,
     heap !! annotation = Some obj → ∃ w, _OverlappingWrapper heap annotation = Some w)
  ∧ (∀ fuel heap annotation obj seen w seen' i name value,
       wrap (S fuel) heap annotation obj seen = Some (w, seen') →
       NoDup (o_properties obj).*1 →
       o_properties obj !! i = Some (name, value) →
       ∃ properties_i seen_i,
         wrap_properties heap (wrap fuel heap) (take i (o_properties obj)) ∅ seen
         = Some (properties_i, seen_i)
         ∧ seen ⊆ seen_i ∧ seen_i ⊆ seen' ∧ (value_id value ∈ seen')
         ∧ (∀ j n v, (j < i)%nat → o_properties obj !! j = Some (n, v) →
              value_id v ∈ seen_i)
         ∧ (value_id value ∈ seen_i → w_properties w !! name = None)
         ∧ (value_id value ∉ seen_i →
            ∀ obj', as_annotation heap value = Some obj' →
              ∃ w' seen1,
                wrap fuel heap (value_id value) obj' ({[value_id value]} ∪ seen_i)
                = Some (w', seen1)
                ∧ seen1 ⊆ seen'
                ∧ w_properties w !! name = Some (WWrapped w'))
         ∧ (value_id value ∉ seen_i →
            as_annotation heap value = None →
            w_properties w !! name = Some (WRaw value)))
  ∧ (∀ fuel heap annotation obj seen w seen' name,
       wrap fuel heap annotation obj seen = Some (w, seen') →
       (∀ value, (name, value) ∈ o_properties obj → value_id value ∈ seen) →
       w_properties w !! name = None).
Proof.
  split; [|split].
  - apply _OverlappingWrapper_total.
  - intros fuel heap annotation obj seen w seen' i name value Hw Hnd Hi.
    cbn [wrap] in Hw.
    destruct (wrap_properties _ _ _ _ _) as [[properties seen1]|] eqn:Hp; [|done].
    cbn [mbind option_bind] in Hw. injection Hw as <- <-.
    destruct (wrap_properties_at heap (wrap fuel heap) (wrap_seen heap fuel)
                _ _ _ _ _ Hnd Hp i name value Hi)
      as (properties_i & seen_i & Htake & Hsub & Hearlier & Hcase).
    destruct (wrap_properties_rest heap (wrap fuel heap) (wrap_seen heap fuel)
                _ _ _ _ _ _ _ _ _ _ Hp Hi Htake) as (Hend & Hvalue & Hnested).
    exists properties_i, seen_i. repeat (split; [done|]).
    cbn [w_properties]. destruct (decide (value_id value ∈ seen_i)) as [Hin|Hnin].
    + split; [|done]. intros _. by rewrite Hcase, lookup_empty.
    + split; [done|]. split.
      * intros _ obj' Ha. rewrite Ha in Hcase. destruct Hcase as (w' & seen2 & Hv & Hl).
        exists w', seen2. split; [done|]. split; [|done]. by eapply Hnested.
      * intros _ Ha. by rewrite Ha in Hcase.
  - intros fuel heap annotation obj seen w seen' name Hw Hseen.
    destruct fuel as [|fuel]; [done|]. simpl in Hw.
    destruct (wrap_properties _ _ _ _ _) as [[properties seen1]|] eqn:Hp; [|done].
    simpl in Hw. injection Hw as <- <-. simpl.
    apply (wrap_properties_passed_over heap _ name (wrap_seen heap fuel)) in Hp; [|done].
    by rewrite Hp, lookup_empty.
Qed.

Lemma overlapping_wrapper_seen_witness :
  (∃ w, _OverlappingWrapper heap_cycle 1%positive = Some w)
  ∧ (∃ properties_i seen_i,
       wrap_properties heap_shared (wrap 1 heap_shared)
         (take 1 (o_properties obj_shared)) ∅ ∅ = Some (properties_i, seen_i)
       ∧ ∅ ⊆ seen_i ∧ seen_i ⊆ {[2%positive; 3%positive; 4%positive]}
       ∧ (value_id (PRef 2%positive) ∈ ({[2%positive; 3%positive; 4%positive]} : gset objid))
       ∧ (∀ j n v, (j < 1)%nat → o_properties obj_shared !! j = Some (n, v) →
            value_id v ∈ seen_i)
       ∧ (value_id (PRef 2%positive) ∈ seen_i →
          w_properties wrapper_shared !! "q" = None)
       ∧ (value_id (PRef 2%positive) ∉ seen_i →
          ∀ obj', as_annotation heap_shared (PRef 2%positive) = Some obj' →
            ∃ w' seen1,
              wrap 1 heap_shared (value_id (PRef 2%positive)) obj'
                ({[value_id (PRef 2%positive)]} ∪ seen_i) = Some (w', seen1)
              ∧ seen1 ⊆ {[2%positive; 3%positive; 4%positive]}
              ∧ w_properties wrapper_shared !! "q" = Some (WWrapped w'))
       ∧ (value_id (PRef 2%positive) ∉ seen_i →
          as_annotation heap_shared (PRef 2%positive) = None →
          w_properties wrapper_shared !! "q" = Some (WRaw (PRef 2%positive))))
  ∧ (∃ properties_i seen_i,
       wrap_properties heap_shared (wrap 1 heap_shared)
         (take 3 (o_properties obj_shared)) ∅ ∅ = Some (properties_i, seen_i)
       ∧ ∅ ⊆ seen_i ∧ seen_i ⊆ {[2%positive; 3%positive; 4%positive]}
       ∧ (value_id (PRef 3%positive) ∈ ({[2%positive; 3%positive; 4%positive]} : gset objid))
       ∧ (∀ j n v, (j < 3)%nat → o_properties obj_shared !! j = Some (n, v) →
            value_id v ∈ seen_i)
       ∧ (value_id (PRef 3%positive) ∈ seen_i →
          w_properties wrapper_shared !! "s" = None)
       ∧ (value_id (PRef 3%positive) ∉ seen_i →
          ∀ obj', as_annotation heap_shared (PRef 3%positive) = Some obj' →
            ∃ w' seen1,
              wrap 1 heap_shared (value_id (PRef 3%positive)) obj'
                ({[value_id (PRef 3%positive)]} ∪ seen_i) = Some (w', seen1)
              ∧ seen1 ⊆ {[2%positive; 3%positive; 4%positive]}
              ∧ w_properties wrapper_shared !! "s" = Some (WWrapped w'))
       ∧ (value_id (PRef 3%positive) ∉ seen_i →
          as_annotation heap_shared (PRef 3%positive) = None →
          w_properties wrapper_shared !! "s" = Some (WRaw (PRef 3%positive))))
  ∧ w_properties
      (mkWrapper 1%positive "A" "" (OverlappingSpans [(0, 5)%Z]) ∅) !! "p" = None.
Proof.
  split; [|split; [|split]].
  - apply (proj1 overlapping_wrapper_seen heap_cycle 1%positive
             (mkAnnObj "A" "" (EntitySpans [(0, 5)%Z]) [("p", PRef 2%positive)])).
    reflexivity.
  - apply (proj1 (proj2 overlapping_wrapper_seen) 1%nat heap_shared 1%positive
             obj_shared ∅ wrapper_shared {[2%positive; 3%positive; 4%positive]}
             1%nat "q" (PRef 2%positive)).
    + vm_compute. reflexivity.
    + apply (bool_decide_unpack _). vm_compute. exact I.
    + reflexivity.
  - apply (proj1 (proj2 overlapping_wrapper_seen) 1%nat heap_shared 1%positive
             obj_shared ∅ wrapper_shared {[2%positive; 3%positive; 4%positive]}
             3%nat "s" (PRef 3%positive)).
    + vm_compute. reflexivity.
    + apply (bool_decide_unpack _). vm_compute. exact I.
    + reflexivity.
  - apply (proj2 (proj2 overlapping_wrapper_seen) 1%nat heap_cycle 1%positive
             (mkAnnObj "A" "" (EntitySpans [(0, 5)%Z]) [("p", PRef 2%positive)])
             {[2%positive]} _ {[2%positive]} "p").
    + vm_compute. reflexivity.
    + intros value Hv. apply list_elem_of_singleton in Hv. injection Hv as ->.
      by apply elem_of_singleton.
Defined.

(** C9, where it fails: [A.p] is [B] and [B.q] is [A].  Wrapping [A] wraps
    [B], which wraps [A] once more; there [B] is in [seen], and the inner
    wrapper of [A] has no entry for [p] at all, rather than the raw [B]. *)
Lemma overlapping_wrapper_cycle_drops :
  ∃ w wB wA,
    _OverlappingWrapper heap_cycle 1%positive = Some w
    ∧ w_properties w !! "p" = Some (WWrapped wB)
    ∧ w_properties wB !! "q" = Some (WWrapped wA)
    ∧ w_annotation wA = 1%positive
    ∧ w_properties wA !! "p" = None
    ∧ w_properties wA !! "p" ≠ Some (WRaw (PRef 2%positive)).
Proof.
  exists (mkWrapper 1%positive "A" "" (OverlappingSpans [(0, 5)%Z])
            {["p" := WWrapped
                (mkWrapper 2%positive "B" "" (OverlappingSpans [(6, 9)%Z])
                   {["q" := WWrapped
                       (mkWrapper 1%positive "A" "" (OverlappingSpans [(0, 5)%Z]) ∅)]})]}).
  exists (mkWrapper 2%positive "B" "" (OverlappingSpans [(6, 9)%Z])
            {["q" := WWrapped
                (mkWrapper 1%positive "A" "" (OverlappingSpans [(0, 5)%Z]) ∅)]}).
  exists (mkWrapper 1%positive "A" "" (OverlappingSpans [(0, 5)%Z]) ∅).
  repeat split; try (vm_compute; reflexivity). by vm_compute.
Qed.

(** ** The corpus driver *)

Section LoadFacts.
Context {R : Type} (raw_eq : R → R → bool) (world : World R).

Lemma list_remove_length (x : R) (l l' : list R) :
  list_remove raw_eq x l = Some l' → length l = S (length l').
Proof.
  revert l'. induction l as [|y l IH]; intros l'; simpl; [done|].
  destruct (raw_eq y x); [by intros [= ->]|].
  destruct (list_remove raw_eq x l) as [l''|]; [|done].
  simpl. intros [= <-]. simpl. by rewrite (IH l'').
Qed.

(** one pass of the loop either raises or shortens the list by the number
    of errors; it never runs out of fuel *)
Lemma remove_errors_outcome (xml_path : string) (errors annotations : list R)
    (log : list LogRecord) :
  match (remove_errors raw_eq xml_path errors annotations log).1 with
  | Returned annotations' => length annotations = (length errors + length annotations')%nat
  | Raised _ => True
  | Diverged => False
  end.
Proof.
  revert annotations log. induction errors as [|e errors IH]; intros annotations log.
  - done.
  - simpl. unfold mbind, Eff_bind, warn.
    destruct (list_remove raw_eq e annotations) as [annotations1|] eqn:Hr; [|done].
    specialize (IH annotations1 (log ++ [RemovingInvalidAnnotation xml_path])).
    destruct (remove_errors _ _ _ _ _) as [[annotations'| |] log']; simpl in *; try done.
    apply list_remove_length in Hr. lia.
Qed.

(** the [while] loop of [_load_and_remove_errors] ends within the fuel it
    is given *)
Lemma remove_while_errors_ends (fuel : nat) (xml_path : string) (annotations : list R)
    (log : list LogRecord) :
  (length annotations < fuel)%nat →
  (remove_while_errors raw_eq world fuel xml_path annotations log).1 ≠ Diverged.
Proof.
  revert annotations log. induction fuel as [|fuel IH]; intros annotations log Hlt; [lia|].
  cbn [remove_while_errors].
  destruct (schema_errors world annotations) as [|e errors] eqn:He; [done|].
  unfold mbind, Eff_bind.
  pose proof (remove_errors_outcome xml_path (e :: errors) annotations log) as Ho.
  destruct (remove_errors raw_eq xml_path (e :: errors) annotations log)
    as [[annotations'| |] log']; cbn [fst length] in *; try done.
  apply IH. lia.
Qed.

Lemma _load_and_remove_errors_ends (xml_path : string) (log : list LogRecord) :
  (_load_and_remove_errors raw_eq world xml_path log).1 ≠ Diverged.
Proof.
  unfold _load_and_remove_errors.
  destruct (file world xml_path) as [[|annotations]|]; try done.
  unfold mbind, Eff_bind.
  pose proof (remove_while_errors_ends (S (length annotations)) xml_path annotations log)
    as Hn.
  destruct (remove_while_errors _ _ _ _ _ _) as [[annotations'| |] log']; simpl in *;
    try done.
  intros _. by apply Hn; [lia|].
Qed.
End LoadFacts.

(** C8, on the code: a reference file that does not parse, or is missing,
    is logged and loaded as [None]; [score_data] then reads
    [reference_data.annotations] and the whole run ends in
    [AttributeError], the second unit left unscored.  Without a file that
    matches the predicted pattern the run ends in [IndexError].  Only a
    predicted file that does not parse is taken as an empty document, and
    the run returns the totals of both units. *)
Theorem score_dirs_load_failures :
  score_dirs_exact (with_file corpus "ref/doc1/doc1.xml" (Some InvalidXML)) []
  = (Raised AttributeError, [IgnoringInvalidXML "ref/doc1/doc1.xml"])
  ∧ score_dirs_exact (with_file corpus "ref/doc1/doc1.xml" None) []
    = (Raised AttributeError, [NoSuchFile "ref/doc1/doc1.xml"])
  ∧ score_dirs_exact corpus_without_predicted []
    = (Raised IndexError, [MultiplePredictedFiles []])
  ∧ is_returned
      (score_dirs_exact (with_file corpus "pred/doc1/doc1.xml" (Some InvalidXML)) []) = true
  ∧ (score_dirs_exact (with_file corpus "pred/doc1/doc1.xml" (Some InvalidXML)) []).2
    = [IgnoringInvalidXML "pred/doc1/doc1.xml"]
  ∧ corpus_totals !! KType "Person" = Some (mkScores 2 1 1)
  ∧ corpus_totals !! KProp "Person" "<span>" = Some (mkScores 2 1 1).
Proof.
  split; [vm_compute; reflexivity|].
  split; [vm_compute; reflexivity|].
  split; [vm_compute; reflexivity|].
  split; [vm_compute; reflexivity|].
  split; [vm_compute; reflexivity|].
  split; vm_compute; reflexivity.
Qed.

(** ** More on the measures and on [update] *)

Lemma precision_range (s : Scores) :
  (0 ≤ correct s)%Z → bounded s → (0 <= precision s <= 1)%Q.
Proof.
  unfold bounded, precision. intros Hc Hb.
  destruct (Z.eqb_spec (predicted s) 0) as [|Hne]; [split; discriminate|].
  assert (0 < inject_Z (predicted s))%Q as Hp.
  { change 0%Q with (inject_Z 0). rewrite <- Zlt_Qlt. lia. }
  split.
  - apply Qle_shift_div_l; [done|]. rewrite Qmult_0_l.
    change 0%Q with (inject_Z 0). rewrite <- Zle_Qle. lia.
  - apply Qle_shift_div_r; [done|]. rewrite Qmult_1_l. rewrite <- Zle_Qle. lia.
Qed.

Lemma recall_range (s : Scores) :
  (0 ≤ correct s)%Z → bounded s → (0 <= recall s <= 1)%Q.
Proof.
  unfold bounded, recall. intros Hc Hb.
  destruct (Z.eqb_spec (reference s) 0) as [|Hne]; [split; discriminate|].
  assert (0 < inject_Z (reference s))%Q as Hp.
  { change 0%Q with (inject_Z 0). rewrite <- Zlt_Qlt. lia. }
  split.
  - apply Qle_shift_div_l; [done|]. rewrite Qmult_0_l.
    change 0%Q with (inject_Z 0). rewrite <- Zle_Qle. lia.
  - apply Qle_shift_div_r; [done|]. rewrite Qmult_1_l. rewrite <- Zle_Qle. lia.
Qed.

Lemma harmonic_range (p r : Q) :
  (0 <= p <= 1)%Q → (0 <= r <= 1)%Q →
  (0 <= (if Qeq_bool (p + r) 0 then 0 else 2 * p * r / (p + r)) <= 1)%Q.
Proof.
  intros [Hp0 Hp1] [Hr0 Hr1].
  destruct (Qeq_bool (p + r) 0) eqn:E; [split; discriminate|].
  apply Qeq_bool_neq in E.
  assert (0 < p + r)%Q as Hpos.
  { apply Qnot_le_lt. intros Hle. apply E. lra. }
  split.
  - apply Qle_shift_div_l; [done|]. nra.
  - apply Qle_shift_div_r; [done|]. nra.
Qed.

(** X2: For counters with [0 <= correct <= min(reference, predicted)], the
    three measures lie between [0] and [1]. *)
Theorem measures_between_0_and_1 (s : Scores) :
  (0 ≤ correct s)%Z → bounded s →
  (0 <= precision s <= 1)%Q ∧ (0 <= recall s <= 1)%Q ∧ (0 <= f1 s <= 1)%Q.
Proof.
  intros Hc Hb. split; [by apply precision_range|]. split; [by apply recall_range|].
  unfold f1. apply harmonic_range; [by apply precision_range|by apply recall_range].
Qed.

Lemma precision_zero (s : Scores) :
  (0 ≤ correct s)%Z → bounded s →
  (precision s == 0)%Q ↔ correct s = 0%Z ∧ (0 < predicted s)%Z.
Proof.
  unfold bounded, precision. intros Hc Hb.
  destruct (Z.eqb_spec (predicted s) 0) as [He|Hne].
  - split; [discriminate|lia].
  - assert (0 < inject_Z (predicted s))%Q as Hp.
    { change 0%Q with (inject_Z 0). rewrite <- Zlt_Qlt. lia. }
    split.
    + intros Hz. split; [|lia].
      assert (inject_Z (correct s) == 0)%Q as Hc0.
      { assert (inject_Z (correct s) == inject_Z (correct s) / inject_Z (predicted s) * inject_Z (predicted s))%Q as ->.
        { field. lra. }
        rewrite Hz. lra. }
      unfold Qeq in Hc0. simpl in Hc0. lia.
    + intros [-> _]. unfold Qdiv. by rewrite Qmult_0_l.
Qed.

Lemma recall_zero (s : Scores) :
  (0 ≤ correct s)%Z → bounded s →
  (recall s == 0)%Q ↔ correct s = 0%Z ∧ (0 < reference s)%Z.
Proof.
  unfold bounded, recall. intros Hc Hb.
  destruct (Z.eqb_spec (reference s) 0) as [He|Hne].
  - split; [discriminate|lia].
  - assert (0 < inject_Z (reference s))%Q as Hp.
    { change 0%Q with (inject_Z 0). rewrite <- Zlt_Qlt. lia. }
    split.
    + intros Hz. split; [|lia].
      assert (inject_Z (correct s) == 0)%Q as Hc0.
      { assert (inject_Z (correct s) == inject_Z (correct s) / inject_Z (reference s) * inject_Z (reference s))%Q as ->.
        { field. lra. }
        rewrite Hz. lra. }
      unfold Qeq in Hc0. simpl in Hc0. lia.
    + intros [-> _]. unfold Qdiv. by rewrite Qmult_0_l.
Qed.

Lemma harmonic_zero (p r : Q) :
  (0 <= p)%Q → (0 <= r)%Q →
  ((if Qeq_bool (p + r) 0 then 0 else 2 * p * r / (p + r)) == 0)%Q ↔ (p == 0 ∨ r == 0)%Q.
Proof.
  intros Hp Hr. destruct (Qeq_bool (p + r) 0) eqn:E.
  - apply Qeq_bool_iff in E. split; [|reflexivity]. intros _. left. lra.
  - apply Qeq_bool_neq in E.
    assert (0 < p + r)%Q as Hpos.
    { apply Qnot_le_lt. intros Hle. apply E. lra. }
    split.
    + intros Hz.
      assert (p * r == 0)%Q as Hm.
      { assert (2 * p * r == 2 * p * r / (p + r) * (p + r))%Q as Hx by (field; lra).
        rewrite Hz in Hx. lra. }
      apply Qmult_integral in Hm. tauto.
    + intros [Hz|Hz]; rewrite Hz; unfold Qdiv.
      * by rewrite Qmult_0_r, !Qmult_0_l.
      * by rewrite Qmult_0_r, Qmult_0_l.
Qed.

(** X3: For counters with [0 <= correct <= min(reference, predicted)], [f1]
    is [0] exactly when nothing is correct while something was in the
    reference or predicted; with all three counters [0] it is [1]. *)
Theorem f1_zero_iff (s : Scores) :
  (0 ≤ correct s)%Z → bounded s →
  ((f1 s == 0)%Q ↔ correct s = 0%Z ∧ (0 < reference s ∨ 0 < predicted s)%Z)
  ∧ (reference s = 0%Z → predicted s = 0%Z → correct s = 0%Z ∧ (f1 s == 1)%Q).
Proof.
  intros Hc Hb. split.
  - unfold f1.
    rewrite harmonic_zero; [|by apply precision_range|by apply recall_range].
    rewrite precision_zero, recall_zero by done. tauto.
  - intros Hr Hp. split; [unfold bounded in Hb; lia|].
    unfold f1, precision, recall. by rewrite Hr, Hp.
Qed.

(** X1: [update] adds the counters: the order in which documents are folded
    into the totals does not matter, and fresh [Scores] change nothing. *)
Theorem update_monoid :
  (∀ a b, update a b = update b a)
  ∧ (∀ a b c, update (update a b) c = update a (update b c))
  ∧ (∀ a, update Scores_init a = a ∧ update a Scores_init = a).
Proof.
  split; [|split].
  - intros [] []. unfold update. simpl. f_equal; lia.
  - intros [] [] []. unfold update. simpl. f_equal; lia.
  - intros []. unfold update. simpl. split; f_equal; lia.
Qed.

Lemma measures_between_0_and_1_witness :
  (0 <= precision (mkScores 4 3 2) <= 1)%Q
  ∧ (0 <= recall (mkScores 4 3 2) <= 1)%Q
  ∧ (0 <= f1 (mkScores 4 3 2) <= 1)%Q.
Proof. apply measures_between_0_and_1; unfold bounded; simpl; lia. Defined.

Lemma f1_zero_iff_witness :
  ((f1 (mkScores 0 3 0) == 0)%Q
   ↔ correct (mkScores 0 3 0) = 0%Z
     ∧ (0 < reference (mkScores 0 3 0) ∨ 0 < predicted (mkScores 0 3 0))%Z)
  ∧ (correct (mkScores 0 0 0) = 0%Z ∧ (f1 (mkScores 0 0 0) == 1)%Q).
Proof.
  split.
  - apply (f1_zero_iff (mkScores 0 3 0)); unfold bounded; simpl; lia.
  - apply (f1_zero_iff (mkScores 0 0 0)); unfold bounded; simpl; lia.
Defined.

(** ** Overlap is symmetric and not transitive *)

Lemma _OverlappingSpans_eq_sym (a b : list Span) :
  _OverlappingSpans_eq a b = _OverlappingSpans_eq b a.
Proof.
  apply eq_true_iff_eq. rewrite !_OverlappingSpans_eq_spec. split.
  - intros (s & t & Hs & Ht & H1 & H2). by exists t, s.
  - intros (s & t & Hs & Ht & H1 & H2). by exists t, s.
Qed.

(** X4: [_OverlappingSpans.__eq__] gives the same answer in both directions,
    and is not transitive: a span can overlap two spans that are apart. *)
Theorem overlapping_spans_symmetric_not_transitive :
  (∀ a b, _OverlappingSpans_eq a b = _OverlappingSpans_eq b a)
  ∧ ∃ a b c, _OverlappingSpans_eq a b = true
             ∧ _OverlappingSpans_eq b c = true
             ∧ _OverlappingSpans_eq a c = false.
Proof.
  split; [apply _OverlappingSpans_eq_sym|].
  by exists [(0, 5)%Z], [(3, 8)%Z], [(6, 10)%Z].
Qed.

(** ** The contract of the grouper and of [add] *)

Section GroupByContract.
Context {A : Type} (py_eq : A → A → bool) (py_hash : A → HashCode).
Context `{Countable K} (key_function : A → K).

Lemma group_by_bucket (reference_iterable predicted_iterable : list A) (k : K)
    (r p : list A) :
  _group_by py_eq py_hash key_function reference_iterable predicted_iterable !! k
  = Some (r, p) →
  (r ≠ [] ∨ p ≠ [])
  ∧ (∀ x, x ∈ r → x ∈ reference_iterable ∧ key_function x = k)
  ∧ (∀ x, x ∈ p → x ∈ predicted_iterable ∧ key_function x = k)
  ∧ set_wf py_eq py_hash r ∧ set_wf py_eq py_hash p.
Proof.
  rewrite group_by_lookup.
  destruct (decide _) as [|Hne]; [done|]. intros [= <- <-].
  split; [|split; [|split; [|split]]].
  - rewrite !set_of_nil_iff.
    destruct (decide (filter (λ x, key_function x = k) reference_iterable = []));
      [|by left].
    right. intros ?. by apply Hne.
  - intros x Hx%set_of_elem. apply list_elem_of_filter in Hx. tauto.
  - intros x Hx%set_of_elem. apply list_elem_of_filter in Hx. tauto.
  - apply set_of_wf.
  - apply set_of_wf.
Qed.

Lemma group_by_covers_reference (reference_iterable predicted_iterable : list A) (x : A) :
  x ∈ reference_iterable →
  ∃ r p, _group_by py_eq py_hash key_function reference_iterable predicted_iterable
           !! key_function x = Some (r, p)
         ∧ (x ∈ r ∨ set_contains py_eq py_hash r x = true).
Proof.
  intros Hx. rewrite group_by_lookup.
  assert (x ∈ filter (λ y, key_function y = key_function x) reference_iterable) as Hf
    by by apply list_elem_of_filter.
  destruct (decide _) as [[He _]|_].
  { rewrite He in Hf. by apply not_elem_of_nil in Hf. }
  eexists _, _. split; [done|]. by apply set_of_covers.
Qed.

Lemma group_by_covers_predicted (reference_iterable predicted_iterable : list A) (x : A) :
  x ∈ predicted_iterable →
  ∃ r p, _group_by py_eq py_hash key_function reference_iterable predicted_iterable
           !! key_function x = Some (r, p)
         ∧ (x ∈ p ∨ set_contains py_eq py_hash p x = true).
Proof.
  intros Hx. rewrite group_by_lookup.
  assert (x ∈ filter (λ y, key_function y = key_function x) predicted_iterable) as Hf
    by by apply list_elem_of_filter.
  destruct (decide _) as [[_ He]|_].
  { rewrite He in Hf. by apply not_elem_of_nil in Hf. }
  eexists _, _. split; [done|]. by apply set_of_covers.
Qed.

(** X5: [_group_by]: a key has a bucket exactly when an item has that key; the
    bucket is not empty on both sides, each side holds only items of its
    own iterable with that key, no entry matching an earlier one; and every
    item is in the bucket of its key on its side, or matched by an entry
    there. *)
Theorem group_by_contract (reference_iterable predicted_iterable : list A) :
  let groups := _group_by py_eq py_hash key_function reference_iterable predicted_iterable in
  (∀ k r p, groups !! k = Some (r, p) →
     (r ≠ [] ∨ p ≠ [])
     ∧ (∀ x, x ∈ r → x ∈ reference_iterable ∧ key_function x = k)
     ∧ (∀ x, x ∈ p → x ∈ predicted_iterable ∧ key_function x = k)
     ∧ set_wf py_eq py_hash r ∧ set_wf py_eq py_hash p)
  ∧ (∀ x, x ∈ reference_iterable →
       ∃ r p, groups !! key_function x = Some (r, p)
              ∧ (x ∈ r ∨ set_contains py_eq py_hash r x = true))
  ∧ (∀ x, x ∈ predicted_iterable →
       ∃ r p, groups !! key_function x = Some (r, p)
              ∧ (x ∈ p ∨ set_contains py_eq py_hash p x = true)).
Proof.
  cbv zeta. split; [|split].
  - intros k r p. apply group_by_bucket.
  - intros x. apply group_by_covers_reference.
  - intros x. apply group_by_covers_predicted.
Qed.
End GroupByContract.

(** ** What [add] returns, for objects whose [==] is equality *)

Section MissedAdded.
Context {A : Type} `{EqDecision A} (py_eq : A → A → bool) (py_hash : A → HashCode).
Context (py_eq_spec : ∀ x y, py_eq x y = true ↔ x = y).

Lemma set_difference_wf_from (other result so : list A) :
  set_wf py_eq py_hash result →
  set_wf py_eq py_hash
    (foldl (λ result entry,
              if set_contains py_eq py_hash other entry
              then result else set_add py_eq py_hash result entry)
           result so).
Proof.
  revert result. induction so as [|x so IH]; intros result Hwf; [done|].
  simpl. apply IH. destruct (set_contains _ _ other x); [done|by apply set_add_wf].
Qed.

Lemma set_difference_elem_from (other result so : list A) (x : A) :
  x ∈ foldl (λ result entry,
               if set_contains py_eq py_hash other entry
               then result else set_add py_eq py_hash result entry)
            result so
  ↔ x ∈ result ∨ (x ∈ so ∧ x ∉ other).
Proof.
  revert result. induction so as [|y so IH]; intros result; simpl.
  - split; [by left|]. intros [?|[Hn _]]; [done|]. by apply not_elem_of_nil in Hn.
  - rewrite IH, elem_of_cons. destruct (set_contains _ _ other y) eqn:E.
    + apply (set_contains_elem_of py_eq py_hash py_eq_spec) in E.
      split; [tauto|]. intros [?|[[->|?] ?]]; tauto.
    + assert (y ∉ other) as Hn.
      { intros Hin%(set_contains_elem_of py_eq py_hash py_eq_spec). congruence. }
      rewrite (elem_of_set_add py_eq py_hash py_eq_spec).
      split; [intros [[?| ->]|[? ?]]; tauto|]. intros [?|[[->|?] ?]]; tauto.
Qed.

Lemma elem_of_set_difference (so other : list A) (x : A) :
  x ∈ set_difference py_eq py_hash so other ↔ x ∈ so ∧ x ∉ other.
Proof.
  unfold set_difference. rewrite set_difference_elem_from.
  split; [|tauto]. intros [Hn|?]; [|done]. by apply not_elem_of_nil in Hn.
Qed.

Lemma set_difference_wf (so other : list A) :
  set_wf py_eq py_hash (set_difference py_eq py_hash so other).
Proof. apply set_difference_wf_from. constructor. Qed.

(** a set splits into what the other set has and what it has not *)
Lemma set_len_split (so other : list A) :
  set_wf py_eq py_hash so →
  set_len so
  = (set_len (set_intersection py_eq py_hash so other)
     + set_len (set_difference py_eq py_hash so other))%Z.
Proof.
  intros Hwf. unfold set_len. rewrite <- Nat2Z.inj_add, <- length_app. f_equal.
  apply Permutation_length, NoDup_Permutation.
  - by apply (set_wf_NoDup py_eq py_hash py_eq_spec).
  - apply NoDup_app. split; [|split].
    + apply (set_wf_NoDup py_eq py_hash py_eq_spec), (set_intersection_wf _ _).
    + intros x Hi Hd. apply (elem_of_set_intersection py_eq py_hash py_eq_spec) in Hi.
      apply elem_of_set_difference in Hd. tauto.
    + apply (set_wf_NoDup py_eq py_hash py_eq_spec), set_difference_wf.
  - intros x. rewrite elem_of_app, (elem_of_set_intersection py_eq py_hash py_eq_spec),
      elem_of_set_difference.
    destruct (decide (x ∈ other)); tauto.
Qed.

(** X6: For objects whose [==] is equality, the pair that [add] returns holds
    the reference items that are not predicted and the predicted items
    that are not in the reference, and each side's count splits into the
    correct items and those. *)
Theorem add_missed_added (self : Scores) (reference_items predicted_items : list A) :
  let result :=
    add py_eq py_hash self
      (set_of py_eq py_hash reference_items) (set_of py_eq py_hash predicted_items) in
  (∀ x, x ∈ result.2.1 ↔ x ∈ reference_items ∧ x ∉ predicted_items)
  ∧ (∀ x, x ∈ result.2.2 ↔ x ∈ predicted_items ∧ x ∉ reference_items)
  ∧ (reference result.1 - reference self
     = correct result.1 - correct self + set_len result.2.1)%Z
  ∧ (predicted result.1 - predicted self
     = correct result.1 - correct self + set_len result.2.2)%Z.
Proof.
  cbv zeta. unfold add. cbn [fst snd reference predicted correct].
  split; [|split; [|split]].
  - intros x. by rewrite elem_of_set_difference, !(elem_of_set_of py_eq py_hash py_eq_spec).
  - intros x. by rewrite elem_of_set_difference, !(elem_of_set_of py_eq py_hash py_eq_spec).
  - rewrite (set_len_split (set_of py_eq py_hash reference_items)
               (set_of py_eq py_hash predicted_items)) by apply set_of_wf.
    lia.
  - rewrite (set_len_split (set_of py_eq py_hash predicted_items)
               (set_of py_eq py_hash reference_items)) by apply set_of_wf.
    assert (set_len (set_intersection py_eq py_hash (set_of py_eq py_hash predicted_items)
                       (set_of py_eq py_hash reference_items))
            = set_len (set_intersection py_eq py_hash (set_of py_eq py_hash reference_items)
                         (set_of py_eq py_hash predicted_items))) as ->; [|lia].
    unfold set_len. f_equal.
    apply (same_elements_length);
      [apply (set_wf_NoDup py_eq py_hash py_eq_spec), set_intersection_wf
      |apply (set_wf_NoDup py_eq py_hash py_eq_spec), set_intersection_wf|].
    intros x. rewrite !(elem_of_set_intersection py_eq py_hash py_eq_spec). tauto.
Qed.
End MissedAdded.

Lemma add_missed_added_witness :
  let result :=
    add (ann_eq Exact) (ann_hash Exact) Scores_init
      (set_of (ann_eq Exact) (ann_hash Exact) doc_alice)
      (set_of (ann_eq Exact) (ann_hash Exact) doc_bob) in
  (∀ x, x ∈ result.2.1 ↔ x ∈ doc_alice ∧ x ∉ doc_bob)
  ∧ (∀ x, x ∈ result.2.2 ↔ x ∈ doc_bob ∧ x ∉ doc_alice)
  ∧ (reference result.1 - reference Scores_init
     = correct result.1 - correct Scores_init + set_len result.2.1)%Z
  ∧ (predicted result.1 - predicted Scores_init
     = correct result.1 - correct Scores_init + set_len result.2.2)%Z.
Proof. apply (add_missed_added _ _ Exact_ann_eq_spec). Defined.

(** ** The names [score_data] returns *)

Section Entries.
Context (M : AnnotationModel) (include exclude : option (gset Key)).

Lemma _accept_passes (t : string) (prop_name : option string)
    (prop_value : option (Value M)) (k : Key) :
  _accept M include exclude t prop_name prop_value = true →
  match prop_name, prop_value ≫= value_basestring M with
  | None, _ => k = KType t
  | Some p, None => k = KProp t p
  | Some p, Some v => k = KValue t p v
  end →
  key_passes include exclude k.
Proof.
  unfold _accept, key_passes, in_pair, in_triple. intros Ha Hk.
  apply andb_true_iff in Ha as [Hi He]. split.
  - intros inc ->. apply orb_true_iff in Hi as [Hi|Hi];
      [apply orb_true_iff in Hi as [Hi|Hi]|].
    + apply bool_decide_eq_true in Hi. left.
      destruct prop_name as [p|]; [destruct (prop_value ≫= _)|]; by subst k.
    + destruct prop_name as [p|]; [|done]. apply bool_decide_eq_true in Hi.
      destruct (prop_value ≫= _) as [v|]; subst k; [|by right; left].
      right. right. by exists t, p, v.
    + destruct prop_name as [p|]; [|done].
      destruct (prop_value ≫= _) as [v|]; [|done]. apply bool_decide_eq_true in Hi.
      subst k. by right; left.
  - intros exc ->.
    apply andb_true_iff in He as [He He3]. apply andb_true_iff in He as [He1 He2].
    apply negb_true_iff, bool_decide_eq_false in He1.
    apply negb_true_iff in He2, He3.
    destruct prop_name as [p|].
    + apply bool_decide_eq_false in He2.
      destruct (prop_value ≫= _) as [v|]; subst k; simpl.
      * apply bool_decide_eq_false in He3. split; [done|]. split; [done|].
        by intros ? ? ? [= <- <- <-].
      * split; [done|]. split; [done|]. by intros.
    + subst k. split; [done|]. split; [done|]. by intros.
Qed.

Lemma fact_candidates_pass (ann : Ann M) (f : Fact M) :
  f ∈ fact_candidates M include exclude ann → key_passes include exclude (fact_key M f).
Proof.
  unfold fact_candidates. rewrite elem_of_app. intros [Hf|Hf].
  - destruct (_accept M include exclude _ _ None) eqn:Ha; [|by apply not_elem_of_nil in Hf].
    apply list_elem_of_singleton in Hf as ->.
    by apply (_accept_passes _ _ _ _ Ha).
  - apply list_elem_of_bind in Hf as ([name value] & Hf & _).
    unfold property_candidates in Hf. simpl in Hf. apply elem_of_app in Hf as [Hf|Hf].
    + destruct (_accept M include exclude _ _ None) eqn:Ha;
        [|by apply not_elem_of_nil in Hf].
      apply list_elem_of_singleton in Hf as ->.
      by apply (_accept_passes _ _ _ _ Ha).
    + destruct (value_basestring M value) as [text|] eqn:Hv;
        [|by apply not_elem_of_nil in Hf].
      destruct (_accept M include exclude _ _ (Some _)) eqn:Ha;
        [|by apply not_elem_of_nil in Hf].
      apply list_elem_of_singleton in Hf as ->.
      apply (_accept_passes _ _ _ _ Ha). simpl. by rewrite Hv.
Qed.

Lemma _props_pass (annotations : list (Ann M)) (f : Fact M) :
  f ∈ _props M include exclude annotations → key_passes include exclude (fact_key M f).
Proof.
  rewrite _props_candidates. intros Hf%set_of_elem.
  apply list_elem_of_bind in Hf as (a & Hf & _). by apply fact_candidates_pass in Hf.
Qed.

Lemma set_len_pos {A} (so : list A) : so ≠ [] → (1 ≤ set_len so)%Z.
Proof. destruct so; [done|]. unfold set_len. simpl. lia. Qed.

Lemma set_len_nonneg {A} (so : list A) : (0 ≤ set_len so)%Z.
Proof. unfold set_len. lia. Qed.

Lemma add_init_counts {A} (py_eq : A → A → bool) (py_hash : A → HashCode) (r p : list A) :
  r ≠ [] ∨ p ≠ [] →
  let s := (add py_eq py_hash Scores_init r p).1 in
  (0 ≤ correct s)%Z ∧ bounded s ∧ (1 ≤ reference s + predicted s)%Z.
Proof.
  intros Hne. cbv zeta. split; [|split].
  - unfold add. simpl. apply set_len_nonneg.
  - apply add_bounded, Scores_init_bounded.
  - unfold add. simpl. pose proof (set_len_nonneg r). pose proof (set_len_nonneg p).
    destruct Hne as [Hne|Hne]; apply set_len_pos in Hne; lia.
Qed.

Lemma score_annotations_entry (reference_annotations predicted_annotations : list (Ann M))
    (k : Key) (s : Scores) :
  score_annotations M include exclude reference_annotations predicted_annotations !! k
  = Some s →
  key_passes include exclude k
  ∧ (0 ≤ correct s)%Z ∧ bounded s ∧ (1 ≤ reference s + predicted s)%Z.
Proof.
  rewrite score_annotations_lookup.
  destruct (_ !! key_type k) as [[R P]|] eqn:Hg; [|done].
  apply group_by_bucket in Hg as (Hne & _).
  destruct (decide _) as [Hk|Hk].
  - destruct (_accept _ _ _ _ _ _) eqn:Ha; [|done].
    intros Hs; apply (inj Some) in Hs; subst s. split; [|by apply add_init_counts].
    by apply (_accept_passes _ _ _ _ Ha).
  - destruct (_ !! k) as [[rt pt]|] eqn:Hp; [|done].
    intros Hs; apply (inj Some) in Hs; subst s.
    apply group_by_bucket in Hp as (Hnep & Hrt & Hpt & _).
    split; [|by apply add_init_counts].
    destruct Hnep as [Hn|Hn].
    + destruct rt as [|f rt]; [done|].
      destruct (Hrt f) as [Hf <-]; [apply list_elem_of_here|]. by apply _props_pass in Hf.
    + destruct pt as [|f pt]; [done|].
      destruct (Hpt f) as [Hf <-]; [apply list_elem_of_here|]. by apply _props_pass in Hf.
Qed.
End Entries.

(** X7: Every name in the mapping that [score_data] returns passes the
    filter: with an [include], the type, the name itself or its
    [(type, property)] pair is included, and none of the three is in
    [exclude]. *)
Theorem score_data_keys_pass_filter (M : AnnotationModel)
    (include exclude : option (gset Key))
    (reference_annotations : list (Ann M)) (predicted_data : option (list (Ann M))) :
  ∃ r, score_data M include exclude (Some reference_annotations) predicted_data = inr r
       ∧ ∀ k s, r !! k = Some s → key_passes include exclude k.
Proof.
  eexists. split; [reflexivity|]. intros k s Hs.
  by apply score_annotations_entry in Hs as [? _].
Qed.

(** X8: Whatever the equality in use, every entry that [score_data] returns
    counts at least one reference or predicted item, with
    [0 <= correct <= min(reference, predicted)]. *)
Theorem score_data_entries_count (M : AnnotationModel)
    (include exclude : option (gset Key))
    (reference_annotations : list (Ann M)) (predicted_data : option (list (Ann M))) :
  ∃ r, score_data M include exclude (Some reference_annotations) predicted_data = inr r
       ∧ ∀ k s, r !! k = Some s →
           (0 ≤ correct s)%Z ∧ bounded s ∧ (1 ≤ reference s + predicted s)%Z.
Proof.
  eexists. split; [reflexivity|]. intros k s Hs.
  by apply score_annotations_entry in Hs as [_ ?].
Qed.

(** ** Exchanging the two documents *)

Section GroupBySwap.
Context {A : Type} (py_eq : A → A → bool) (py_hash : A → HashCode).
Context `{Countable K} (key_function : A → K).

Lemma group_by_swap (a b : list A) (k : K) :
  _group_by py_eq py_hash key_function b a !! k
  = (λ rp, (rp.2, rp.1)) <$> _group_by py_eq py_hash key_function a b !! k.
Proof.
  rewrite !group_by_lookup.
  destruct (decide (filter _ b = [] ∧ filter _ a = [])) as [[Hb Ha]|Hn];
    destruct (decide (filter _ a = [] ∧ filter _ b = [])) as [[Ha' Hb']|Hn'];
    try done.
  - by destruct Hn'.
  - by destruct Hn.
Qed.
End GroupBySwap.

Section AddSwap.
Context {A : Type} `{EqDecision A} (py_eq : A → A → bool) (py_hash : A → HashCode).
Context (py_eq_spec : ∀ x y, py_eq x y = true ↔ x = y).

Lemma add_init_swap (r p : list A) :
  (add py_eq py_hash Scores_init p r).1
  = swap_scores (add py_eq py_hash Scores_init r p).1.
Proof.
  unfold add, swap_scores. cbn [fst reference predicted correct]. f_equal.
  unfold set_len. do 2 f_equal.
  apply same_elements_length;
    [apply (set_wf_NoDup py_eq py_hash py_eq_spec), set_intersection_wf
    |apply (set_wf_NoDup py_eq py_hash py_eq_spec), set_intersection_wf|].
  intros x. rewrite !(elem_of_set_intersection py_eq py_hash py_eq_spec). tauto.
Qed.
End AddSwap.

Lemma score_annotations_exact_swap (include exclude : option (gset Key))
    (a b : list Annotation) (k : Key) :
  score_annotations Exact include exclude b a !! k
  = swap_scores <$> score_annotations Exact include exclude a b !! k.
Proof.
  rewrite !score_annotations_lookup, group_by_swap.
  destruct (_ !! key_type k) as [[R P]|]; [|done]. cbn [fmap option_fmap option_map fst snd].
  destruct (decide _).
  - destruct (_accept _ _ _ _ _ _); [|done]. cbn [fmap option_fmap option_map].
    by rewrite (add_init_swap _ _ Exact_ann_eq_spec).
  - unfold prop_groups_of. rewrite group_by_swap.
    destruct (_ !! k) as [[rt pt]|]; [|done]. cbn [fmap option_fmap option_map fst snd].
    by rewrite (add_init_swap _ _ Exact_fact_eq_spec).
Qed.

(** X9: Under the default equality, exchanging the two documents exchanges
    [reference] and [predicted] under every name and keeps [correct]. *)
Theorem score_data_exact_swap (include exclude : option (gset Key))
    (a b : list Annotation) :
  ∃ r r', score_data Exact include exclude (Some a) (Some b) = inr r
          ∧ score_data Exact include exclude (Some b) (Some a) = inr r'
          ∧ ∀ k, r' !! k = swap_scores <$> r !! k.
Proof.
  eexists _, _. split; [reflexivity|]. split; [reflexivity|].
  intros k. apply score_annotations_exact_swap.
Qed.

(** ** The loader and the totals of [score_dirs] *)

Lemma run_ok_ret {X} (Q : X → Prop) (x : X) : Q x → run_ok Q (mret x).
Proof. by intros Hx log. Qed.

Lemma run_ok_raise {X} (Q : X → Prop) (e : Exn) : run_ok Q (raise e).
Proof. by intros log. Qed.

Lemma run_ok_bind {X Y} (Q : X → Prop) (Q' : Y → Prop) (m : Eff X) (k : X → Eff Y) :
  run_ok Q m → (∀ x, Q x → run_ok Q' (k x)) → run_ok Q' (m ≫= k).
Proof.
  intros Hm Hk log. unfold mbind, Eff_bind. specialize (Hm log).
  destruct (m log) as [[x| |] log']; simpl in *; [|done|done].
  by apply Hk.
Qed.

Lemma run_ok_warn (r : LogRecord) : run_ok (λ _, True) (warn r).
Proof. by intros log. Qed.

Section Loader.
Context {R : Type} (raw_eq : R → R → bool) (world : World R).

Lemma list_remove_elem (x : R) (l l' : list R) (y : R) :
  list_remove raw_eq x l = Some l' → y ∈ l' → y ∈ l.
Proof.
  revert l'. induction l as [|z l IH]; intros l'; simpl; [done|].
  destruct (raw_eq z x).
  - intros [= ->] Hy. by apply list_elem_of_further.
  - destruct (list_remove raw_eq x l) as [l''|]; [|done]. simpl. intros [= <-] Hy.
    apply elem_of_cons in Hy as [->|Hy]; [apply list_elem_of_here|].
    apply list_elem_of_further. by apply (IH l'').
Qed.

(** a pass that returns has dropped one annotation per error, and kept
    only annotations it was given *)
Lemma remove_errors_ok (xml_path : string) (errors annotations : list R) :
  run_ok (λ annotations',
            length annotations = (length errors + length annotations')%nat
            ∧ ∀ y, y ∈ annotations' → y ∈ annotations)
         (remove_errors raw_eq xml_path errors annotations).
Proof.
  revert annotations. induction errors as [|e errors IH]; intros annotations.
  - by apply run_ok_ret.
  - simpl. eapply run_ok_bind; [apply run_ok_warn|]. intros _ _.
    destruct (list_remove raw_eq e annotations) as [annotations1|] eqn:Hr;
      [|apply run_ok_raise].
    intros log. specialize (IH annotations1 log).
    destruct (remove_errors _ _ _ _ _) as [[annotations'| |] log']; simpl in *; try done.
    destruct IH as [Hlen Hsub]. split.
    + apply list_remove_length in Hr. lia.
    + intros y Hy. eapply list_remove_elem; [done|]. by apply Hsub.
Qed.

Lemma remove_while_errors_ok (fuel : nat) (xml_path : string) (annotations : list R) :
  (length annotations < fuel)%nat →
  run_ok (λ annotations',
            schema_errors world annotations' = []
            ∧ (length annotations' ≤ length annotations)%nat
            ∧ ∀ y, y ∈ annotations' → y ∈ annotations)
         (remove_while_errors raw_eq world fuel xml_path annotations).
Proof.
  revert annotations. induction fuel as [|fuel IH]; intros annotations Hlt; [lia|].
  cbn [remove_while_errors].
  destruct (schema_errors world annotations) as [|e errors] eqn:He.
  { by apply run_ok_ret. }
  eapply run_ok_bind; [apply remove_errors_ok|].
  intros annotations1 [Hlen Hsub]. cbn [length] in Hlen.
  intros log. specialize (IH annotations1 ltac:(lia) log).
  destruct (remove_while_errors _ _ _ _ _ _) as [[annotations'| |] log']; simpl in *;
    try done.
  destruct IH as (Herr & Hlen' & Hsub'). split; [done|]. split; [lia|]. auto.
Qed.

(** X10: [_load_and_remove_errors] always comes back.  A document it returns is
    made of annotations of the file, and the schema finds no error in it;
    [None] is returned exactly for a missing file and for XML that does not
    parse. *)
Theorem _load_and_remove_errors_valid (xml_path : string) (log : list LogRecord) :
  match (_load_and_remove_errors raw_eq world xml_path log).1 with
  | Returned (Some annotations) =>
      ∃ original, file world xml_path = Some (ValidXML original)
                  ∧ schema_errors world annotations = []
                  ∧ (length annotations ≤ length original)%nat
                  ∧ ∀ y, y ∈ annotations → y ∈ original
  | Returned None => file world xml_path = None ∨ file world xml_path = Some InvalidXML
  | Raised e => ∃ original, file world xml_path = Some (ValidXML original)
  | Diverged => False
  end.
Proof.
  unfold _load_and_remove_errors.
  destruct (file world xml_path) as [[|original]|]; [by right|..|by left].
  unfold mbind, Eff_bind.
  pose proof (remove_while_errors_ok (S (length original)) xml_path original
                ltac:(lia) log) as Hok.
  destruct (remove_while_errors _ _ _ _ _ _) as [[annotations| |] log']; simpl in *.
  - by exists original.
  - by exists original.
  - done.
Qed.
End Loader.

Lemma update_all_lookup (result named_scores : gmap Key Scores) (k : Key) :
  update_all result named_scores !! k
  = match named_scores !! k with
    | Some scores => Some (update (default Scores_init (result !! k)) scores)
    | None => result !! k
    end.
Proof.
  unfold update_all. revert k.
  apply (map_fold_weak_ind (λ r (m : gmap Key Scores), ∀ k,
           r !! k = match m !! k with
                    | Some scores => Some (update (default Scores_init (result !! k)) scores)
                    | None => result !! k
                    end)).
  - intros k. by rewrite lookup_empty.
  - intros name scores m r Hnone IH k.
    destruct (decide (name = k)) as [->|Hne].
    + rewrite !lookup_insert_eq. by rewrite (IH k), Hnone.
    + rewrite !lookup_insert_ne by done. apply IH.
Qed.

Lemma update_counted (a b : Scores) :
  (a = Scores_init ∨ counted a) → counted b → counted (update a b).
Proof.
  unfold counted, bounded, update. intros [->|Ha] Hb; simpl in *; lia.
Qed.

Lemma update_all_counted (result named_scores : gmap Key Scores) :
  (∀ k s, result !! k = Some s → counted s) →
  (∀ k s, named_scores !! k = Some s → counted s) →
  ∀ k s, update_all result named_scores !! k = Some s → counted s.
Proof.
  intros Hr Hn k s. rewrite update_all_lookup.
  destruct (named_scores !! k) as [scores|] eqn:Hk; [|apply Hr].
  intros [= <-]. apply update_counted; [|by eapply Hn].
  destruct (result !! k) as [s0|] eqn:Hs0; [right; by eapply Hr|by left].
Qed.

Section Driver.
Context (M : AnnotationModel) (include exclude : option (gset Key)).
Context (raw_eq : Ann M → Ann M → bool) (world : World (Ann M)).

Lemma single_or_first_ok (names : list string) (warning : LogRecord) :
  run_ok (λ _, True) (single_or_first names warning).
Proof.
  destruct names as [|name [|name' names]]; simpl.
  - eapply run_ok_bind; [apply run_ok_warn|]. intros _ _. apply run_ok_raise.
  - by apply run_ok_ret.
  - eapply run_ok_bind; [apply run_ok_warn|]. intros _ _. by apply run_ok_ret.
Qed.

Lemma _load_and_remove_errors_ok (xml_path : string) :
  run_ok (λ _, True) (_load_and_remove_errors raw_eq world xml_path).
Proof.
  intros log. unfold _load_and_remove_errors.
  destruct (file world xml_path) as [[|original]|]; [done| |done].
  unfold mbind, Eff_bind.
  pose proof (remove_while_errors_ok raw_eq world (S (length original)) xml_path original
                ltac:(lia) log) as Hok.
  by destruct (remove_while_errors _ _ _ _ _ _) as [[annotations| |] log'].
Qed.

Lemma score_data_counted (reference_data predicted_data : option (list (Ann M)))
    (r : gmap Key Scores) :
  score_data M include exclude reference_data predicted_data = inr r →
  ∀ k s, r !! k = Some s → counted s.
Proof.
  unfold score_data. destruct reference_data as [reference_annotations|]; [|done].
  intros [= <-] k s Hs. by apply score_annotations_entry in Hs as [_ ?].
Qed.

Lemma score_unit_ok (reference_dir predicted_dir : string) (result : gmap Key Scores)
    (unit : string * list string) :
  (∀ k s, result !! k = Some s → counted s) →
  run_ok (λ r, ∀ k s, r !! k = Some s → counted s)
         (score_unit raw_eq world (score_data M include exclude)
            reference_dir predicted_dir result unit).
Proof.
  intros Hr. destruct unit as [sub_dir reference_xml_names]. unfold score_unit.
  eapply run_ok_bind; [apply single_or_first_ok|]. intros reference_xml_name _.
  eapply run_ok_bind; [apply single_or_first_ok|]. intros predicted_xml_path _.
  eapply run_ok_bind; [apply _load_and_remove_errors_ok|]. intros reference_data _.
  eapply run_ok_bind; [apply _load_and_remove_errors_ok|]. intros predicted_data _.
  destruct (score_data M include exclude reference_data predicted_data)
    as [e|named_scores] eqn:Hs; [apply run_ok_raise|].
  apply run_ok_ret. apply update_all_counted; [done|].
  by apply (score_data_counted _ _ _ Hs).
Qed.

(** X11: [score_dirs] always comes back, and under every name the totals it
    returns count at least one item, with
    [0 <= correct <= min(reference, predicted)]. *)
Theorem score_dirs_totals (reference_dir predicted_dir : string) :
  run_ok (λ r, ∀ k s, r !! k = Some s → counted s)
         (score_dirs raw_eq world (score_data M include exclude) reference_dir predicted_dir).
Proof.
  unfold score_dirs.
  assert (run_ok (λ r : gmap Key Scores, ∀ k s, r !! k = Some s → counted s) (mret ∅))
    as Hinit.
  { apply run_ok_ret. intros k s. by rewrite lookup_empty. }
  revert Hinit. generalize (mret ∅ : Eff (gmap Key Scores)).
  induction (walk world reference_dir) as [|unit units IH]; intros acc Hacc; [done|].
  simpl. apply IH. eapply run_ok_bind; [apply Hacc|].
  intros result Hr. by apply score_unit_ok.
Qed.
End Driver.

(** ** Names on the command line and in the table *)

Lemma split_colons_nonempty (s : string) : split_colons s ≠ [].
Proof.
  induction s as [|c s IH]; simpl; [done|].
  destruct (Ascii.eqb c ":"%char); [done|]. by destruct (split_colons s).
Qed.

Lemma join_colons_cons_char (c : ascii) (first : string) (others : list string) :
  join_colons (String c first :: others) = String c (join_colons (first :: others)).
Proof. by destruct others. Qed.

Lemma join_split_colons (s : string) : join_colons (split_colons s) = s.
Proof.
  induction s as [|c s IH]; simpl; [done|].
  destruct (Ascii.eqb_spec c ":"%char) as [->|Hne].
  - pose proof (split_colons_nonempty s).
    destruct (split_colons s) as [|first others] eqn:E; [done|].
    change (join_colons ("" :: first :: others))
      with (String ":"%char (join_colons (first :: others))). by rewrite IH.
  - pose proof (split_colons_nonempty s).
    destruct (split_colons s) as [|first others] eqn:E; [done|].
    by rewrite join_colons_cons_char, IH.
Qed.

Lemma split_colons_no_colon (s : string) : no_colon s = true → split_colons s = [s].
Proof.
  induction s as [|c s IH]; simpl; [done|].
  intros [Hc Hs]%andb_true_iff. apply negb_true_iff in Hc. rewrite Hc.
  by rewrite IH.
Qed.

Lemma split_colons_app (item rest : string) :
  no_colon item = true →
  split_colons (item +:+ String ":"%char rest) = item :: split_colons rest.
Proof.
  induction item as [|c item IH]; simpl.
  - done.
  - intros [Hc Hs]%andb_true_iff. apply negb_true_iff in Hc.
    change (String c item +:+ String ":"%char rest) with (String c (item +:+ String ":"%char rest)).
    simpl. rewrite Hc. by rewrite IH.
Qed.

Lemma split_join_colons (items : list string) :
  items ≠ [] → Forall (λ item, no_colon item = true) items →
  split_colons (join_colons items) = items.
Proof.
  intros Hne Hall. induction Hall as [|item rest Hitem Hrest IH]; [done|].
  destruct rest as [|item' rest].
  - simpl. by apply split_colons_no_colon.
  - change (join_colons (item :: item' :: rest))
      with (item +:+ String ":"%char (join_colons (item' :: rest))).
    rewrite split_colons_app by done. by rewrite IH.
Qed.

(** X12: What [split_tuple_on_colons] parses prints back as the same string. *)
Theorem score_name_of_split (s : string) : _score_name (split_tuple_on_colons s) = s.
Proof.
  unfold split_tuple_on_colons. pose proof (join_split_colons s) as Hj.
  destruct (split_colons s) as [|item [|item' rest]]; simpl in *; done.
Qed.

(** X13: The printed name of a key whose parts hold no colon parses back to
    that key. *)
Theorem split_of_score_name (k : Key) :
  Forall (λ item, no_colon item = true) (key_items k) →
  split_tuple_on_colons (_score_name (key_name k)) = key_name k.
Proof.
  intros Hall. unfold split_tuple_on_colons.
  destruct k as [t|t p|t p v]; simpl key_name; cbn [_score_name].
  - apply Forall_cons in Hall as [Ht _]. by rewrite split_colons_no_colon.
  - by rewrite split_join_colons.
  - by rewrite split_join_colons.
Qed.

Lemma split_of_score_name_witness :
  split_tuple_on_colons (_score_name (key_name (KValue "Person" "name" "Alice")))
  = key_name (KValue "Person" "name" "Alice").
Proof. apply split_of_score_name. repeat constructor. Defined.

(** ** The shape of a wrapper *)

Section WrapStructure.
Context (heap : gmap objid AnnObj).

Lemma wrap_header (fuel : nat) (annotation : objid) (obj : AnnObj) (seen : gset objid)
    (w : Wrapper) (seen' : gset objid) :
  wrap fuel heap annotation obj seen = Some (w, seen') →
  w_annotation w = annotation
  ∧ w_type w = o_type obj
  ∧ w_parents_type w = o_parents_type obj
  ∧ w_spans w = wrap_spans (o_spans obj).
Proof.
  destruct fuel as [|fuel]; [done|]. simpl.
  destruct (wrap_properties _ _ _ _ _) as [[properties seen1]|]; [|done].
  simpl. by intros [= <- _].
Qed.

Lemma wrap_properties_entries
    (wrap_value : objid → AnnObj → gset objid → option (Wrapper * gset objid)) :
  (∀ id obj seen w seen', wrap_value id obj seen = Some (w, seen') →
     seen ⊆ seen'
     ∧ w_annotation w = id ∧ w_type w = o_type obj
     ∧ w_parents_type w = o_parents_type obj ∧ w_spans w = wrap_spans (o_spans obj)) →
  ∀ items properties seen properties' seen',
    wrap_properties heap wrap_value items properties seen = Some (properties', seen') →
    (∀ name v, properties' !! name = Some v →
       properties !! name = Some v
       ∨ ∃ value, (name, value) ∈ items ∧ (value_id value ∉ seen) ∧ entry_of heap value v)
    ∧ (∀ name value, (name, value) ∈ items → value_id value ∈ seen').
Proof.
  intros Hw items. induction items as [|[name' value'] items IH];
    intros properties seen properties' seen'; simpl.
  - intros [= <- <-]. split; [by left|]. intros ? ? Hn. by apply not_elem_of_nil in Hn.
  - destruct (decide (value_id value' ∈ seen)) as [Hin|Hnin].
    { intros Hl. pose proof (wrap_properties_seen heap wrap_value
                               (λ id obj s w s' Hv, proj1 (Hw id obj s w s' Hv))
                               _ _ _ _ _ Hl) as Hsub.
      apply IH in Hl as [Hentries Hseen]. split.
      - intros name v Hv. destruct (Hentries name v Hv) as [?|(value & ? & ? & ?)];
          [by left|]. right. exists value. split; [by apply list_elem_of_further|done].
      - intros name value [[= -> ->]|?]%elem_of_cons; [by apply Hsub|by eapply Hseen]. }
    destruct (as_annotation heap value') as [obj|] eqn:Ha.
    + destruct (wrap_value _ obj _) as [[w seen1]|] eqn:Hv; [|done]. simpl. intros Hl.
      destruct (Hw _ _ _ _ _ Hv) as (Hsub1 & Hid & Ht & Hpt & Hsp).
      pose proof (wrap_properties_seen heap wrap_value
                    (λ id obj s w s' Hv, proj1 (Hw id obj s w s' Hv))
                    _ _ _ _ _ Hl) as Hsub.
      apply IH in Hl as [Hentries Hseen]. split.
      * intros name v Hv'. destruct (Hentries name v Hv') as [Hold|(value & ? & Hns & ?)].
        -- destruct (decide (name' = name)) as [->|Hne].
           ++ rewrite lookup_insert_eq in Hold. injection Hold as <-.
              right. exists value'. split; [apply list_elem_of_here|]. split; [done|].
              simpl. by exists obj.
           ++ rewrite lookup_insert_ne in Hold by done. by left.
        -- right. exists value. split; [by apply list_elem_of_further|].
           split; [|done]. intros Hs. apply Hns, Hsub1. apply elem_of_union. by right.
      * intros name value [[= -> ->]|?]%elem_of_cons; [|by eapply Hseen].
        apply Hsub, Hsub1, elem_of_union. left. by apply elem_of_singleton.
    + intros Hl.
      pose proof (wrap_properties_seen heap wrap_value
                    (λ id obj s w s' Hv, proj1 (Hw id obj s w s' Hv))
                    _ _ _ _ _ Hl) as Hsub.
      apply IH in Hl as [Hentries Hseen]. split.
      * intros name v Hv'. destruct (Hentries name v Hv') as [Hold|(value & ? & Hns & ?)].
        -- destruct (decide (name' = name)) as [->|Hne].
           ++ rewrite lookup_insert_eq in Hold. injection Hold as <-.
              right. exists value'. split; [apply list_elem_of_here|]. by split.
           ++ rewrite lookup_insert_ne in Hold by done. by left.
        -- right. exists value. split; [by apply list_elem_of_further|].
           split; [|done]. intros Hs. apply Hns. apply elem_of_union. by right.
      * intros name value [[= -> ->]|?]%elem_of_cons; [|by eapply Hseen].
        apply Hsub, elem_of_union. left. by apply elem_of_singleton.
Qed.

(** X14: The wrapper keeps the type, the type of the parents and the spans of
    the annotation it wraps.  Every entry of its properties comes from a
    property of the annotation whose value had not been seen: a value that
    is no annotation as itself, an annotation as its wrapper.  Afterwards
    the values of all the properties are in [seen]. *)
Theorem wrap_structure (fuel : nat) (annotation : objid) (obj : AnnObj)
    (seen : gset objid) (w : Wrapper) (seen' : gset objid) :
  wrap fuel heap annotation obj seen = Some (w, seen') →
  w_annotation w = annotation
  ∧ w_type w = o_type obj
  ∧ w_parents_type w = o_parents_type obj
  ∧ w_spans w = wrap_spans (o_spans obj)
  ∧ (∀ name v, w_properties w !! name = Some v →
       ∃ value, (name, value) ∈ o_properties obj
                ∧ (value_id value ∉ seen) ∧ entry_of heap value v)
  ∧ (∀ name value, (name, value) ∈ o_properties obj → value_id value ∈ seen').
Proof.
  intros Hw. destruct (wrap_header _ _ _ _ _ _ Hw) as (Ha & Ht & Hpt & Hsp).
  repeat (split; [done|]).
  destruct fuel as [|fuel]; [done|]. simpl in Hw.
  destruct (wrap_properties _ _ _ _ _) as [[properties seen1]|] eqn:Hp; [|done].
  simpl in Hw. injection Hw as <- <-. simpl.
  apply wrap_properties_entries in Hp as [Hentries Hseen].
  - split; [|done]. intros name v Hv.
    destruct (Hentries name v Hv) as [Hold|?]; [|done]. by rewrite lookup_empty in Hold.
  - intros id obj' s w' s' Hv. split; [by eapply wrap_seen|by eapply wrap_header].
Qed.
End WrapStructure.

Lemma wrap_structure_witness :
  let obj := mkAnnObj "A" "" (EntitySpans [(0, 5)%Z]) [("p", PRef 2%positive)] in
  let w := mkWrapper 1%positive "A" "" (OverlappingSpans [(0, 5)%Z]) ∅ in
  w_annotation w = 1%positive
  ∧ w_type w = o_type obj
  ∧ w_parents_type w = o_parents_type obj
  ∧ w_spans w = wrap_spans (o_spans obj)
  ∧ (∀ name v, w_properties w !! name = Some v →
       ∃ value, (name, value) ∈ o_properties obj
                ∧ (value_id value ∉ ({[2%positive]} : gset objid))
                ∧ entry_of heap_cycle value v)
  ∧ (∀ name value, (name, value) ∈ o_properties obj →
       value_id value ∈ ({[2%positive]} : gset objid)).
Proof.
  apply (wrap_structure heap_cycle 1%nat 1%positive
           (mkAnnObj "A" "" (EntitySpans [(0, 5)%Z]) [("p", PRef 2%positive)])
           {[2%positive]}
           (mkWrapper 1%positive "A" "" (OverlappingSpans [(0, 5)%Z]) ∅)
           {[2%positive]}).
  vm_compute. reflexivity.
Defined.

(** ** The multi-annotator driver *)

Lemma sorted_pair (a b : string) :
  sorted String.leb [a; b] = if String.leb a b then [a; b] else [b; a].
Proof. done. Qed.

Lemma make_prefix_pair (a b : string) :
  make_prefix [a; b]
  = Some (if String.leb a b then a +:+ "-vs-" +:+ b else b +:+ "-vs-" +:+ a).
Proof. unfold make_prefix. rewrite sorted_pair. by destruct (String.leb a b). Qed.

(** X15: The label of a pair does not depend on the order of the two
    annotators, and the general label is one of three. *)
Theorem make_prefix_symmetric (a b : string) :
  make_prefix [a; b] = make_prefix [b; a]
  ∧ (make_prefix (general_name <$> [a; b]) = Some "annotator-vs-annotator"
     ∨ make_prefix (general_name <$> [a; b]) = Some "annotator-vs-gold"
     ∨ make_prefix (general_name <$> [a; b]) = Some "gold-vs-gold").
Proof.
  split.
  - rewrite !make_prefix_pair.
    destruct (String.leb a b) eqn:Hab, (String.leb b a) eqn:Hba; try done.
    + by rewrite (String.leb_antisym _ _ Hab Hba).
    + destruct (String.leb_total a b); congruence.
  - unfold general_name. simpl.
    destruct (decide (a = "gold")) as [->|_], (decide (b = "gold")) as [->|_];
      vm_compute; auto.
Qed.

Lemma name_tuple_key (k : Key) : tuple_key (name_tuple k) = Some k.
Proof. by destruct k. Qed.

Lemma name_tuple_inj (k k' : Key) : name_tuple k = name_tuple k' → k = k'.
Proof.
  intros Heq. apply (inj Some). by rewrite <- !name_tuple_key, Heq.
Qed.

Lemma update_at_lookup (result : gmap (list string) Scores) (key key' : list string)
    (scores : Scores) :
  update_at result key scores !! key'
  = if decide (key' = key)
    then Some (update (default Scores_init (result !! key')) scores)
    else result !! key'.
Proof.
  unfold update_at. destruct (decide (key' = key)) as [->|Hne].
  - by rewrite lookup_insert_eq.
  - by rewrite lookup_insert_ne.
Qed.

(** what the loop over the items of [named_scores] does to one entry *)
Lemma update_labelled_lookup (prefix general_prefix : string)
    (result : gmap (list string) Scores) (named_scores : gmap Key Scores)
    (label : string) (k : Key) :
  update_labelled prefix general_prefix result named_scores !! (label :: name_tuple k)
  = match named_scores !! k with
    | Some scores =>
        let o := result !! (label :: name_tuple k) in
        let o1 := if decide (label = prefix)
                  then Some (update (default Scores_init o) scores) else o in
        if decide (label = general_prefix)
        then Some (update (default Scores_init o1) scores) else o1
    | None => result !! (label :: name_tuple k)
    end.
Proof.
  unfold update_labelled.
  apply (map_fold_weak_ind (λ r (m : gmap Key Scores),
           r !! (label :: name_tuple k)
           = match m !! k with
             | Some scores =>
                 let o := result !! (label :: name_tuple k) in
                 let o1 := if decide (label = prefix)
                           then Some (update (default Scores_init o) scores) else o in
                 if decide (label = general_prefix)
                 then Some (update (default Scores_init o1) scores) else o1
             | None => result !! (label :: name_tuple k)
             end)).
  - by rewrite lookup_empty.
  - intros name scores m r Hnone IH. cbv zeta.
    rewrite !update_at_lookup.
    destruct (decide (name = k)) as [->|Hne].
    + rewrite lookup_insert_eq, IH, Hnone.
      destruct (decide (label = prefix)) as [Hp|Hp],
               (decide (label = general_prefix)) as [Hg|Hg].
      * rewrite (decide_True (P := _ :: _ = general_prefix :: _)) by congruence.
        by rewrite (decide_True (P := _ :: _ = prefix :: _)) by congruence.
      * rewrite (decide_False (P := _ :: _ = general_prefix :: _)) by congruence.
        by rewrite (decide_True (P := _ :: _ = prefix :: _)) by congruence.
      * rewrite (decide_True (P := _ :: _ = general_prefix :: _)) by congruence.
        by rewrite (decide_False (P := _ :: _ = prefix :: _)) by congruence.
      * rewrite (decide_False (P := _ :: _ = general_prefix :: _)) by congruence.
        by rewrite (decide_False (P := _ :: _ = prefix :: _)) by congruence.
    + rewrite lookup_insert_ne by done.
      assert (name_tuple k ≠ name_tuple name) as Hn.
      { intros Heq%name_tuple_inj. by subst. }
      rewrite !decide_False by congruence. apply IH.
Qed.

(** X16: One comparison goes under two labels.  When they differ, each entry
    grows by the scores of the comparison; when the pair label is the
    general label, the one entry grows by them twice. *)
Theorem update_labelled_both (prefix general_prefix : string)
    (result : gmap (list string) Scores) (named_scores : gmap Key Scores)
    (k : Key) (scores : Scores) :
  named_scores !! k = Some scores →
  let result' := update_labelled prefix general_prefix result named_scores in
  (prefix ≠ general_prefix →
     result' !! (prefix :: name_tuple k)
     = Some (update (default Scores_init (result !! (prefix :: name_tuple k))) scores)
     ∧ result' !! (general_prefix :: name_tuple k)
       = Some (update (default Scores_init (result !! (general_prefix :: name_tuple k)))
                 scores))
  ∧ (prefix = general_prefix →
       result' !! (prefix :: name_tuple k)
       = Some (update
                 (update (default Scores_init (result !! (prefix :: name_tuple k))) scores)
                 scores)).
Proof.
  intros Hk. cbv zeta. split.
  - intros Hne. rewrite !update_labelled_lookup, Hk. cbv zeta. split.
    + rewrite (decide_True (P := prefix = prefix)) by done.
      by rewrite (decide_False (P := prefix = general_prefix)) by done.
    + rewrite (decide_False (P := general_prefix = prefix)) by done.
      by rewrite (decide_True (P := general_prefix = general_prefix)) by done.
  - intros <-. rewrite update_labelled_lookup, Hk. cbv zeta.
    by rewrite !(decide_True (P := prefix = prefix)) by done.
Qed.

Lemma update_labelled_both_witness :
  let named : gmap Key Scores := {[KType "Person" := mkScores 1 1 1]} in
  let result' := update_labelled "annotator-vs-gold" "annotator-vs-gold" ∅ named in
  ("annotator-vs-gold" ≠ "annotator-vs-gold" →
     result' !! ("annotator-vs-gold" :: name_tuple (KType "Person"))
     = Some (update (default Scores_init
                       ((∅ : gmap (list string) Scores)
                          !! ("annotator-vs-gold" :: name_tuple (KType "Person"))))
               (mkScores 1 1 1))
     ∧ result' !! ("annotator-vs-gold" :: name_tuple (KType "Person"))
       = Some (update (default Scores_init
                         ((∅ : gmap (list string) Scores)
                            !! ("annotator-vs-gold" :: name_tuple (KType "Person"))))
                 (mkScores 1 1 1)))
  ∧ ("annotator-vs-gold" = "annotator-vs-gold" →
       result' !! ("annotator-vs-gold" :: name_tuple (KType "Person"))
       = Some (update
                 (update (default Scores_init
                            ((∅ : gmap (list string) Scores)
                               !! ("annotator-vs-gold" :: name_tuple (KType "Person"))))
                    (mkScores 1 1 1))
                 (mkScores 1 1 1))).
Proof.
  apply (update_labelled_both "annotator-vs-gold" "annotator-vs-gold" ∅
           {[KType "Person" := mkScores 1 1 1]} (KType "Person") (mkScores 1 1 1)).
  apply lookup_singleton_eq.
Defined.

Lemma run_okA_ret {X} (Q : X → Prop) (x : X) : Q x → run_okA Q (mret x).
Proof. by intros Hx log. Qed.

Lemma run_okA_raise {X} (Q : X → Prop) (e : Exn) : run_okA Q (raiseA e).
Proof. by intros log. Qed.

Lemma run_okA_bind {X Y} (Q : X → Prop) (Q' : Y → Prop) (m : EffA X) (k : X → EffA Y) :
  run_okA Q m → (∀ x, Q x → run_okA Q' (k x)) → run_okA Q' (m ≫= k).
Proof.
  intros Hm Hk log. unfold mbind, EffA_bind. specialize (Hm log).
  destruct (m log) as [[x| |] log']; simpl in *; [|done|done].
  by apply Hk.
Qed.

Lemma run_okA_warn (r : AnnotatorsLogRecord) : run_okA (λ _, True) (warnA r).
Proof. by intros log. Qed.

Lemma run_okA_loading {X} (Q : X → Prop) (m : Eff X) : run_ok Q m → run_okA Q (loading m).
Proof.
  intros Hm log. unfold loading. specialize (Hm []).
  by destruct (m []) as [[x| |] records].
Qed.

Lemma run_okA_foldl {X Y} (Q : X → Prop) (step : X → Y → EffA X) (l : list Y)
    (acc : EffA X) :
  run_okA Q acc → (∀ x y, Q x → run_okA Q (step x y)) →
  run_okA Q (foldl (λ acc y, x ← acc; step x y) acc l).
Proof.
  intros Hacc Hstep. revert acc Hacc.
  induction l as [|y l IH]; intros acc Hacc; [done|].
  simpl. apply IH. eapply run_okA_bind; [apply Hacc|]. intros x Hx. by apply Hstep.
Qed.

Lemma update_at_counted (result : gmap (list string) Scores) (key : list string)
    (scores : Scores) :
  (∀ k s, result !! k = Some s → counted s) → counted scores →
  ∀ k s, update_at result key scores !! k = Some s → counted s.
Proof.
  intros Hr Hs k s. rewrite update_at_lookup.
  destruct (decide (k = key)) as [->|Hne]; [|apply Hr].
  intros [= <-]. apply update_counted; [|done].
  destruct (result !! key) as [s0|] eqn:Hs0; [right; by eapply Hr|by left].
Qed.

Lemma update_labelled_counted (prefix general_prefix : string)
    (result : gmap (list string) Scores) (named_scores : gmap Key Scores) :
  (∀ k s, result !! k = Some s → counted s) →
  (∀ k s, named_scores !! k = Some s → counted s) →
  ∀ k s, update_labelled prefix general_prefix result named_scores !! k = Some s →
         counted s.
Proof.
  intros Hr. unfold update_labelled. revert named_scores.
  apply (map_fold_weak_ind (λ r (m : gmap Key Scores),
           (∀ k s, m !! k = Some s → counted s) →
           ∀ k s, r !! k = Some s → counted s)).
  - by intros _.
  - intros name scores m r Hnone IH Hm. cbv zeta.
    assert (counted scores) as Hs by (apply (Hm name); apply lookup_insert_eq).
    assert (∀ k s, r !! k = Some s → counted s) as Hr'.
    { apply IH. intros k s Hk. apply (Hm k). rewrite lookup_insert_ne; [done|].
      intros ->. congruence. }
    by apply update_at_counted; [apply update_at_counted|].
Qed.

(** [annotator_name_regex] on file names: the group is the part before the
    last two dot-free parts, and a newline may end the name *)
Lemma annotator_name_examples :
  annotator_name "doc1.bob.completed.xml" = Some "bob"
  ∧ annotator_name ("doc1.bob.completed.xml" +:+ String "010"%char "") = Some "bob"
  ∧ annotator_name "doc1.Temporal.gold.completed.xml" = Some "gold"
  ∧ annotator_name "doc1.xml" = None
  ∧ annotator_name "doc1.bob.completed.xml.bak" = None.
Proof. repeat split. Qed.

Section AnnotatorsTotals.
Context (M : AnnotationModel) (include exclude : option (gset Key)).
Context (raw_eq : Ann M → Ann M → bool) (world : World (Ann M)) (st_size : string → Z).

Lemma load_annotators_ok (anafora_dir sub_dir : string) (xml_names : list string)
    (annotator_data : list (string * option (list (Ann M)))) :
  run_okA (λ _, True)
          (load_annotators raw_eq world st_size anafora_dir sub_dir xml_names annotator_data).
Proof.
  revert annotator_data. induction xml_names as [|xml_name xml_names IH];
    intros annotator_data; simpl.
  - by apply run_okA_ret.
  - destruct (str_contains _ xml_name); [apply IH|].
    destruct (annotator_name xml_name) as [name|]; [|apply run_okA_raise].
    destruct (st_size _ =? 0)%Z; [apply IH|].
    eapply run_okA_bind; [apply run_okA_loading, _load_and_remove_errors_ok|].
    intros data _. apply IH.
Qed.

Lemma score_pair_ok (sub_dir : string) (first second : string * option (list (Ann M)))
    (result : gmap (list string) Scores) :
  (∀ k s, result !! k = Some s → counted s) →
  run_okA (λ r, ∀ k s, r !! k = Some s → counted s)
          (score_pair (score_data M include exclude) sub_dir first result second).
Proof.
  intros Hr. destruct first as [annotator1 data1], second as [annotator2 data2].
  unfold score_pair.
  destruct (make_prefix [annotator1; annotator2]) as [prefix|]; [|apply run_okA_raise].
  destruct (make_prefix _) as [general_prefix|]; [|apply run_okA_raise].
  destruct (score_data M include exclude data1 data2) as [e|named_scores] eqn:Hs;
    [apply run_okA_raise|].
  apply run_okA_ret. apply update_labelled_counted; [done|].
  by apply (score_data_counted _ _ _ _ _ _ Hs).
Qed.

Lemma score_pairs_ok (sub_dir : string)
    (annotator_data : list (string * option (list (Ann M))))
    (result : gmap (list string) Scores) :
  (∀ k s, result !! k = Some s → counted s) →
  run_okA (λ r, ∀ k s, r !! k = Some s → counted s)
          (score_pairs (score_data M include exclude) sub_dir annotator_data result).
Proof.
  revert result. induction annotator_data as [|first others IH]; intros result Hr; simpl.
  - by apply run_okA_ret.
  - eapply run_okA_bind; [|apply IH].
    apply (run_okA_foldl (λ r : gmap (list string) Scores,
                            ∀ k s, r !! k = Some s → counted s)
             (score_pair (score_data M include exclude) sub_dir first)).
    + by apply run_okA_ret.
    + intros x y Hx. by apply score_pair_ok.
Qed.

(** X17: [score_annotators] always comes back, and under every label and name
    the totals it returns count at least one item, with
    [0 <= correct <= min(reference, predicted)]. *)
Theorem score_annotators_totals (anafora_dir : string) :
  run_okA (λ r, ∀ k s, r !! k = Some s → counted s)
          (score_annotators raw_eq world st_size (score_data M include exclude) anafora_dir).
Proof.
  unfold score_annotators.
  apply (run_okA_foldl (λ r : gmap (list string) Scores,
                          ∀ k s, r !! k = Some s → counted s)
           (score_annotators_unit raw_eq world st_size (score_data M include exclude)
              anafora_dir)).
  - apply run_okA_ret. intros k s. by rewrite lookup_empty.
  - intros result [sub_dir xml_names] Hr. unfold score_annotators_unit.
    destruct (bool_decide _).
    + eapply run_okA_bind; [apply run_okA_warn|]. intros _ _. by apply run_okA_ret.
    + eapply run_okA_bind; [apply load_annotators_ok|]. intros annotator_data _.
      by apply score_pairs_ok.
Qed.
End AnnotatorsTotals.
